(** * v3o: request building, operation polling, image fan-out and selection

  A shallow embedding of the orchestration code of the repository:
  - [GeminiService.generateVideo]  (services/geminiService.ts)
  - [GeminiService.generateImages] (services/geminiService.ts)
  - [ImageGalleryDialog.toggleSelection]
  - [ImageGenerationDialog] in its two versions: the one that awaits
    [generateImages] (components/ImageGenerationDialog.tsx) and the one
    that keeps a per-slot status array ([ImageGenerationDialogStatus]).

  Asynchronous code is embedded by explicit state passing: a call of the
  provider appends an event to a trace, and the settlement of the
  concurrent image requests is a schedule, the order in which the event
  loop runs their completion callbacks. *)

From Stdlib Require Import String Ascii List Arith NArith Bool Lia.
From stdpp Require Import base tactics option list sets strings pretty.
Import ListNotations.
Open Scope string_scope.
Open Scope list_scope.
Open Scope nat_scope.

(** ** JavaScript values the sources rely on *)

Module JS.

(** What a [throw] or a rejected promise carries. [err instanceof Error]
    holds of [ErrorObject] only; an [Error] always has a [message], the
    empty string when it was built without one. *)
Inductive Thrown :=
| ErrorObject (message : string)
| NonError (shown : string).

(** The message an error carries, when it is an [Error]. *)
Definition carried_message (err : Thrown) : option string :=
  match err with ErrorObject m => Some m | NonError _ => None end.

(** The result of an expression that may throw. *)
Inductive Result (A : Type) :=
| Ok (a : A)
| Throw (err : Thrown).
Arguments Ok {A} a.
Arguments Throw {A} err.

(** Truthiness of a string ([if (s)]) and of an optional string. *)
Definition truthy (s : string) : bool := negb (String.eqb s "").

Definition truthy_opt (s : option string) : bool :=
  match s with Some s => truthy s | None => false end.

(** A string is held as the bytes of its UTF-8 encoding, so a character
    outside the ASCII range takes two or three bytes.

    [String.prototype.trim] removes the code points of WhiteSpace and
    LineTerminator. Those of one byte: TAB, LF, VT, FF, CR and SPACE. *)
Definition is_space (c : ascii) : bool :=
  let n := nat_of_ascii c in
  ((9 <=? n) && (n <=? 13)) || (n =? 32).

(** Of two bytes: U+00A0 NO-BREAK SPACE (C2 A0). *)
Definition is_space2 (c1 c2 : ascii) : bool :=
  (nat_of_ascii c1 =? 194) && (nat_of_ascii c2 =? 160).

(** Of three bytes: U+1680 (E1 9A 80); U+2000 to U+200A, U+2028, U+2029
    and U+202F (E2 80 80..8A, A8, A9, AF); U+205F (E2 81 9F); U+3000
    (E3 80 80); U+FEFF (EF BB BF). *)
Definition is_space3 (c1 c2 c3 : ascii) : bool :=
  let a := nat_of_ascii c1 in
  let b := nat_of_ascii c2 in
  let c := nat_of_ascii c3 in
  ((a =? 225) && (b =? 154) && (c =? 128))
  || ((a =? 226) && (b =? 128) &&
      (((128 <=? c) && (c <=? 138)) || (c =? 168) || (c =? 169) || (c =? 175)))
  || ((a =? 226) && (b =? 129) && (c =? 159))
  || ((a =? 227) && (b =? 128) && (c =? 128))
  || ((a =? 239) && (b =? 187) && (c =? 191)).

(** Removing from the front of a string the characters that [one], [two]
    and [three] recognise by their bytes, and the test that a string is
    made of such characters only. *)
Fixpoint strip (one : ascii → bool) (two : ascii → ascii → bool)
    (three : ascii → ascii → ascii → bool) (s : string) : string :=
  match s with
  | EmptyString => s
  | String c1 s1 =>
      if one c1 then strip one two three s1
      else
        match s1 with
        | EmptyString => s
        | String c2 s2 =>
            if two c1 c2 then strip one two three s2
            else
              match s2 with
              | EmptyString => s
              | String c3 s3 =>
                  if three c1 c2 c3 then strip one two three s3 else s
              end
        end
  end.

Fixpoint made_of (one : ascii → bool) (two : ascii → ascii → bool)
    (three : ascii → ascii → ascii → bool) (s : string) : bool :=
  match s with
  | EmptyString => true
  | String c1 s1 =>
      if one c1 then made_of one two three s1
      else
        match s1 with
        | EmptyString => false
        | String c2 s2 =>
            if two c1 c2 then made_of one two three s2
            else
              match s2 with
              | EmptyString => false
              | String c3 s3 =>
                  if three c1 c2 c3 then made_of one two three s3 else false
              end
        end
  end.

(** Whether a string starts with such a character. *)
Definition starts_with (one : ascii → bool) (two : ascii → ascii → bool)
    (three : ascii → ascii → ascii → bool) (s : string) : bool :=
  match s with
  | EmptyString => false
  | String c1 s1 =>
      one c1 ||
      match s1 with
      | EmptyString => false
      | String c2 s2 =>
          two c1 c2 ||
          match s2 with
          | EmptyString => false
          | String c3 _ => three c1 c2 c3
          end
      end
  end.

Definition trimStart (s : string) : string :=
  strip is_space is_space2 is_space3 s.

Fixpoint rev_string (acc s : string) : string :=
  match s with
  | EmptyString => acc
  | String c s' => rev_string (String c acc) s'
  end.

(** From the end the bytes of a character are met last byte first. *)
Definition is_space2_rev (c2 c1 : ascii) : bool := is_space2 c1 c2.

Definition is_space3_rev (c3 c2 c1 : ascii) : bool := is_space3 c1 c2 c3.

Definition trimEnd (s : string) : string :=
  rev_string ""
    (strip is_space is_space2_rev is_space3_rev (rev_string "" s)).

Definition trim (s : string) : string := trimEnd (trimStart s).

(** A string made of white space only, the empty string included. *)
Definition blank (s : string) : bool :=
  made_of is_space is_space2 is_space3 s.

(** [l[i] = v] on an array: an index past the end extends the array, the
    slots in between read as [undefined] ([None]). *)
Definition array_set {A} (i : nat) (v : A) (l : list (option A))
  : list (option A) :=
  if decide (i < length l) then <[i := Some v]> l
  else l ++ replicate (i - length l) None ++ [Some v].

(** [l[i]], which is [undefined] out of range and on an empty slot. *)
Definition array_get {A} (i : nat) (l : list (option A)) : option A :=
  mjoin (l !! i).

End JS.

Import JS.

(** ** The data model *)

Module Types.

(** Modelled from the spec: the declarations of [../types]
    (GenerationMode, ImageFile, GenerateVideoParams) are not among the
    sources; the fields are the ones [generateVideo] reads, optional
    where the code tests them for presence. *)
Inductive GenerationMode :=
| TEXT_TO_VIDEO
| FRAMES_TO_VIDEO
| REFERENCES_TO_VIDEO
| EXTEND_VIDEO.

#[global] Instance GenerationMode_eq_dec : EqDecision GenerationMode.
Proof. solve_decision. Defined.

(** A browser [Blob]: bytes and a MIME type. *)
Record Blob := { blob_bytes : string; blob_type : string }.

(** A browser [File]. *)
Record File := { file_name : string; file_type : string; file_blob : Blob }.

(** Modelled from the spec: [ImageFile] of [../types], an image as a
    file handle and its base64 text, the two fields the code reads. *)
Record ImageFile := { file : File; base64 : string }.

(** [Video] of the provider's SDK, the source video handle of a
    request and the video of a result. *)
Record Video := {
  uri : option string;
  videoBytes : option string;
  video_mimeType : option string }.

(** Modelled from the spec: [GenerateVideoParams] of [../types], with
    the fields [generateVideo] reads. *)
Record GenerateVideoParams := {
  prompt : option string;
  model : string;
  aspectRatio : option string;
  resolution : string;
  mode : GenerationMode;
  startFrame : option ImageFile;
  endFrame : option ImageFile;
  referenceImages : option (list ImageFile);
  styleImage : option ImageFile;
  inputVideoObject : option Video;
  isLooping : bool }.

End Types.

Import Types.

(** ** The provider's wire shapes (the SDK's types) *)

Module Sdk.

Record Image := { imageBytes : string; mimeType : string }.

Inductive VideoGenerationReferenceType := ASSET | STYLE.

Record VideoGenerationReferenceImage := {
  ref_image : Image;
  referenceType : VideoGenerationReferenceType }.

(** [config] of the request. An absent field is [None]. *)
Record Config := {
  numberOfVideos : nat;
  cfg_resolution : string;
  cfg_aspectRatio : option string;
  lastFrame : option Image;
  cfg_referenceImages : option (list VideoGenerationReferenceImage) }.

Record Payload := {
  pl_model : string;
  pl_config : Config;
  pl_prompt : option string;
  pl_image : option Image;
  pl_video : option Video }.

Record GeneratedVideo := { video : option Video }.

Record GenerateVideosResponse := {
  generatedVideos : option (list GeneratedVideo) }.

(** The operation handle; [done] is optional on the wire. *)
Record Operation := {
  op_name : string;
  done : option bool;
  response : option GenerateVideosResponse }.

Definition is_done (operation : Operation) : bool :=
  match done operation with Some true => true | _ => false end.

(** A [fetch] response; [ok] is derived from the status as in the
    Fetch standard. [body] is what [res.blob()] settles with: the blob,
    or the error of a body that could not be read. *)
Record Response := {
  status : nat;
  statusText : string;
  body : Result Blob }.

Definition ok (res : Response) : bool :=
  (200 <=? status res) && (status res <=? 299).

(** The answer of [generateContent]; every level is optional in the
    SDK's declarations. [inlineData] holds the [data] of the inline
    blob. *)
Record Part := { inlineData : option string; text : option string }.

Record Content := { parts : option (list Part) }.

Record Candidate := { content : option Content }.

Record GenerateContentResponse := { candidates : option (list Candidate) }.

End Sdk.

Import Sdk.

(** ** Slots of a batch of concurrent requests *)

Module Slots.

(** An array with one slot per request of a batch of [n]: the slots of
    the requests in [settled] hold what [f] gives for them, the others
    hold [d]. *)
Definition slot_map {A} (n : nat) (settled : list nat) (f : nat → A) (d : A)
  : list A :=
  map (λ i, if bool_decide (i ∈ settled) then f i else d) (seq 0 n).

End Slots.

Import Slots.

(** ** services/geminiService.ts *)

Module GeminiService.

(** The [{imageBytes, mimeType}] object the code builds from an
    [ImageFile]. *)
Definition toImage (img : ImageFile) : Image :=
  {| imageBytes := base64 img; mimeType := file_type (file img) |}.

(** Field assignments on the objects under construction. *)
Definition set_aspectRatio (a : option string) (c : Config) : Config :=
  {| numberOfVideos := numberOfVideos c;
     cfg_resolution := cfg_resolution c;
     cfg_aspectRatio := a;
     lastFrame := lastFrame c;
     cfg_referenceImages := cfg_referenceImages c |}.

Definition set_lastFrame (f : Image) (c : Config) : Config :=
  {| numberOfVideos := numberOfVideos c;
     cfg_resolution := cfg_resolution c;
     cfg_aspectRatio := cfg_aspectRatio c;
     lastFrame := Some f;
     cfg_referenceImages := cfg_referenceImages c |}.

Definition set_referenceImages
    (l : list VideoGenerationReferenceImage) (c : Config) : Config :=
  {| numberOfVideos := numberOfVideos c;
     cfg_resolution := cfg_resolution c;
     cfg_aspectRatio := cfg_aspectRatio c;
     lastFrame := lastFrame c;
     cfg_referenceImages := Some l |}.

Definition set_config (f : Config -> Config) (p : Payload) : Payload :=
  {| pl_model := pl_model p;
     pl_config := f (pl_config p);
     pl_prompt := pl_prompt p;
     pl_image := pl_image p;
     pl_video := pl_video p |}.

Definition set_prompt (s : option string) (p : Payload) : Payload :=
  {| pl_model := pl_model p;
     pl_config := pl_config p;
     pl_prompt := s;
     pl_image := pl_image p;
     pl_video := pl_video p |}.

Definition set_image (i : Image) (p : Payload) : Payload :=
  {| pl_model := pl_model p;
     pl_config := pl_config p;
     pl_prompt := pl_prompt p;
     pl_image := Some i;
     pl_video := pl_video p |}.

Definition set_video (v : Video) (p : Payload) : Payload :=
  {| pl_model := pl_model p;
     pl_config := pl_config p;
     pl_prompt := pl_prompt p;
     pl_image := pl_image p;
     pl_video := Some v |}.

Definition missing_input_video : string :=
  "An input video object is required to extend a video.".

(** [generateVideo], from its first statement to the last one before
    the request is submitted: the payload, or the error thrown. *)
Definition buildPayload (params : GenerateVideoParams) : Result Payload :=
  let config :=
    {| numberOfVideos := 1;
       cfg_resolution := resolution params;
       cfg_aspectRatio := None;
       lastFrame := None;
       cfg_referenceImages := None |} in
  let config :=
    if decide (mode params ≠ EXTEND_VIDEO)
    then set_aspectRatio (aspectRatio params) config
    else config in
  let generateVideoPayload :=
    {| pl_model := model params;
       pl_config := config;
       pl_prompt := None;
       pl_image := None;
       pl_video := None |} in
  let generateVideoPayload :=
    if truthy_opt (prompt params)
    then set_prompt (prompt params) generateVideoPayload
    else generateVideoPayload in
  if decide (mode params = FRAMES_TO_VIDEO) then
    let generateVideoPayload :=
      match startFrame params with
      | Some f => set_image (toImage f) generateVideoPayload
      | None => generateVideoPayload
      end in
    let finalEndFrame :=
      if isLooping params then startFrame params else endFrame params in
    match finalEndFrame with
    | Some f => Ok (set_config (set_lastFrame (toImage f)) generateVideoPayload)
    | None => Ok generateVideoPayload
    end
  else if decide (mode params = REFERENCES_TO_VIDEO) then
    let referenceImagesPayload : list VideoGenerationReferenceImage := [] in
    let referenceImagesPayload :=
      match referenceImages params with
      | Some imgs =>
          referenceImagesPayload ++
          map (fun img => {| ref_image := toImage img; referenceType := ASSET |})
              imgs
      | None => referenceImagesPayload
      end in
    let referenceImagesPayload :=
      match styleImage params with
      | Some img =>
          referenceImagesPayload ++
          [{| ref_image := toImage img; referenceType := STYLE |}]
      | None => referenceImagesPayload
      end in
    if 0 <? length referenceImagesPayload
    then Ok (set_config (set_referenceImages referenceImagesPayload)
                        generateVideoPayload)
    else Ok generateVideoPayload
  else if decide (mode params = EXTEND_VIDEO) then
    match inputVideoObject params with
    | Some v => Ok (set_video v generateVideoPayload)
    | None => Throw (ErrorObject missing_input_video)
    end
  else Ok generateVideoPayload.

(** *** Effects *)

(** What [generateVideo] does to the outside world, in order. [CheckDone]
    records an evaluation of the loop test [!operation.done]; the three
    network calls are [GenerateVideos] (submit-generation),
    [GetVideosOperation] (poll-operation) and [Fetch] (fetch-asset).
    Console output is not recorded. *)
Inductive Event :=
| GenerateVideos (payload : Payload)
| CheckDone (operation : Operation)
| SetTimeout (ms : N)
| GetVideosOperation (operation : Operation)
| Fetch (url : string)
| CreateObjectURL (blob : Blob).

Definition is_network (e : Event) : bool :=
  match e with
  | GenerateVideos _ | GetVideosOperation _ | Fetch _ => true
  | _ => false
  end.

Definition is_check (e : Event) : bool :=
  match e with CheckDone _ => true | _ => false end.

Definition is_poll (e : Event) : bool :=
  match e with GetVideosOperation _ => true | _ => false end.

(** The provider and the browser, as far as [generateVideo] uses them.
    The [k]-th call of [getVideosOperation] (from 0) answers
    [getVideosOperation k operation]. *)
Record Provider := {
  API_KEY : string;
  generateVideos : Payload -> Result Operation;
  getVideosOperation : nat -> Operation -> Result Operation;
  fetch : string -> Result Response;
  decodeURIComponent : string -> Result string;
  createObjectURL : Blob -> string }.

(** How a run ends: with a value, with a thrown error, or still in the
    polling loop when the fuel is spent. *)
Inductive Outcome (A : Type) :=
| Returned (a : A)
| Threw (err : Thrown)
| Running.
Arguments Returned {A} a.
Arguments Threw {A} err.
Arguments Running {A}.

(** A computation takes the trace so far and extends it. *)
Definition M (A : Type) : Type := list Event -> Outcome A * list Event.

Definition ret {A} (a : A) : M A := fun t => (Returned a, t).

Definition throw {A} (err : Thrown) : M A := fun t => (Threw err, t).

Definition bind {A B} (m : M A) (k : A -> M B) : M B :=
  fun t =>
    match m t with
    | (Returned a, t') => k a t'
    | (Threw err, t') => (Threw err, t')
    | (Running, t') => (Running, t')
    end.

Definition emit (e : Event) : M unit := fun t => (Returned tt, t ++ [e]).

Definition lift {A} (r : Result A) : M A :=
  match r with Ok a => ret a | Throw err => throw err end.

Notation "'do' x <- m ; k" := (bind m (fun x => k))
  (at level 10, x name, m at level 100, k at level 200).
Notation "m ;; k" := (bind m (fun _ => k))
  (at level 100, k at level 200, right associativity).

(** The [while (!operation.done)] loop; [k] counts the polls made. *)
Fixpoint poll (env : Provider) (fuel k : nat) (operation : Operation)
  : M Operation :=
  emit (CheckDone operation) ;;
  if is_done operation then ret operation
  else
    match fuel with
    | 0 => fun t => (Running, t)
    | S fuel' =>
        emit (SetTimeout 10000%N) ;;
        emit (GetVideosOperation operation) ;;
        do operation' <- lift (getVideosOperation env k operation) ;
        poll env fuel' (S k) operation'
    end.

Record VideoResult := {
  objectUrl : string;
  blob : Blob;
  res_uri : string;
  res_video : Video }.

Definition no_videos_were_generated : string := "No videos were generated.".
Definition missing_uri : string := "Generated video is missing a URI.".
Definition no_videos_generated : string := "No videos generated.".

Definition failed_to_fetch (res : Response) : string :=
  "Failed to fetch video: " +:+ pretty (status res) +:+ " " +:+ statusText res.

(** The part of [generateVideo] after the loop. *)
Definition retrieve (env : Provider) (operation : Operation) : M VideoResult :=
  match response operation with
  | Some resp =>
      match generatedVideos resp with
      | None | Some [] => throw (ErrorObject no_videos_were_generated)
      | Some (firstVideo :: _) =>
          match video firstVideo with
          | Some videoObject =>
              match uri videoObject with
              | Some u =>
                  if truthy u then
                    do url <- lift (decodeURIComponent env u) ;
                    let target := url +:+ "&key=" +:+ API_KEY env in
                    emit (Fetch target) ;;
                    do res <- lift (fetch env target) ;
                    if ok res then
                      do videoBlob <- lift (body res) ;
                      emit (CreateObjectURL videoBlob) ;;
                      ret {| objectUrl := createObjectURL env videoBlob;
                             blob := videoBlob;
                             res_uri := url;
                             res_video := videoObject |}
                    else throw (ErrorObject (failed_to_fetch res))
                  else throw (ErrorObject missing_uri)
              | None => throw (ErrorObject missing_uri)
              end
          | None => throw (ErrorObject missing_uri)
          end
      end
  | None => throw (ErrorObject no_videos_generated)
  end.

Definition generateVideo (env : Provider) (fuel : nat)
    (params : GenerateVideoParams) : M VideoResult :=
  do generateVideoPayload <- lift (buildPayload params) ;
  emit (GenerateVideos generateVideoPayload) ;;
  do operation <- lift (generateVideos env generateVideoPayload) ;
  do operation <- poll env fuel 0 operation ;
  retrieve env operation.

(** A computation only appends to the trace. *)
Definition appends {A} (m : M A) : Prop :=
  ∀ t, ∃ tr, snd (m t) = t ++ tr.

(** One turn of the loop on a handle that is not done: the test, the
    ten-second wait and the poll. *)
Definition round (operation : Operation) : list Event :=
  [CheckDone operation; SetTimeout 10000%N; GetVideosOperation operation].

(** What can follow the rounds of the loop in a trace: nothing (the
    submission or a poll threw), the last test of the loop, then the
    fetch of the asset, then the creation of the object URL. *)
Definition after_loop (tail : list Event) : Prop :=
  tail = [] ∨
  ∃ operation,
    tail = [CheckDone operation] ∨
    ∃ url,
      tail = [CheckDone operation; Fetch url] ∨
      ∃ videoBlob,
        tail = [CheckDone operation; Fetch url; CreateObjectURL videoBlob].

Definition is_object_url (e : Event) : bool :=
  match e with CreateObjectURL _ => true | _ => false end.

Definition is_returned {A} (o : Outcome A) : bool :=
  match o with Returned _ => true | _ => false end.

(** The reference list of a REFERENCES_TO_VIDEO request: the asset
    images in their order, then the style image. *)
Definition asset_reference (img : ImageFile) : VideoGenerationReferenceImage :=
  {| ref_image := toImage img; referenceType := ASSET |}.

Definition style_reference (img : ImageFile) : VideoGenerationReferenceImage :=
  {| ref_image := toImage img; referenceType := STYLE |}.

Definition references_of (params : GenerateVideoParams)
  : list VideoGenerationReferenceImage :=
  map asset_reference (default [] (referenceImages params)) ++
  match styleImage params with
  | Some img => [style_reference img]
  | None => []
  end.

Definition is_style (r : VideoGenerationReferenceImage) : bool :=
  match referenceType r with STYLE => true | ASSET => false end.

(** *** generateImages *)

(** The provider and the browser, as far as the image requests use
    them: the answer to the [i]-th request for a prompt, and [fetch] on
    a [data:] URL. *)
Record ImageProvider := {
  generateContent : nat -> string -> Result GenerateContentResponse;
  fetchData : string -> Result Blob }.

(** A [TypeError] raised by the engine on a property read from
    [undefined]; it is an [Error]. *)
Definition TypeError (property : string) : Thrown :=
  ErrorObject
    ("Cannot read properties of undefined (reading '" +:+ property +:+ "')").

(** [response.candidates[0].content.parts], as the loop header
    evaluates it. *)
Definition partsOf (response : GenerateContentResponse) : Result (list Part) :=
  match candidates response with
  | None => Throw (TypeError "0")
  | Some [] => Throw (TypeError "content")
  | Some (c :: _) =>
      match content c with
      | None => Throw (TypeError "parts")
      | Some ct =>
          match parts ct with
          | None => Throw (ErrorObject "undefined is not iterable")
          | Some ps => Ok ps
          end
      end
  end.

(** The data of the first part that has [inlineData]. *)
Fixpoint firstInlineData (ps : list Part) : option string :=
  match ps with
  | [] => None
  | part :: ps' =>
      match inlineData part with
      | Some d => Some d
      | None => firstInlineData ps'
      end
  end.

Definition base64ToImageFile (env : ImageProvider) (b64 : string) (index : nat)
  : Result ImageFile :=
  match fetchData env ("data:image/png;base64," +:+ b64) with
  | Ok blob =>
      Ok {| file := {| file_name := "generated-image-" +:+ pretty index +:+ ".png";
                       file_type := "image/png";
                       file_blob := blob |};
            base64 := b64 |}
  | Throw err => Throw err
  end.

Definition no_image_data (i : nat) : string :=
  "Image generation failed for image " +:+ pretty (i + 1) +:+
  ". No image data returned.".

(** The promise pushed for slot [i]: the request and its [then]
    callback. *)
Definition imagePromise (env : ImageProvider) (prompt : string) (i : nat)
  : Result ImageFile :=
  match generateContent env i prompt with
  | Throw err => Throw err
  | Ok response =>
      match partsOf response with
      | Throw err => Throw err
      | Ok ps =>
          match firstInlineData ps with
          | Some base64ImageBytes => base64ToImageFile env base64ImageBytes i
          | None => Throw (ErrorObject (no_image_data i))
          end
      end
  end.

(** A promise of the event loop. *)
Inductive PromiseState (A : Type) :=
| Pending
| Fulfilled (a : A)
| Rejected (err : Thrown).
Arguments Pending {A}.
Arguments Fulfilled {A} a.
Arguments Rejected {A} err.

Definition is_settled {A} (p : PromiseState A) : bool :=
  match p with Pending => false | _ => true end.

Definition settle_with {A} (r : Result A) : PromiseState A :=
  match r with Ok a => Fulfilled a | Throw err => Rejected err end.

(** The state of one call of [generateImages] in the event loop:
    the promises of [imagePromises], the bookkeeping of [Promise.all]
    (its [values] and the count of elements not yet fulfilled), the
    promise [Promise.all] returned, and, once that one is settled and
    the [await] has resumed, how many of the calls had settled by
    then. *)
Record Loop := {
  imagePromises : list (PromiseState ImageFile);
  values : list (option ImageFile);
  remaining : nat;
  awaited : PromiseState (list ImageFile);
  resumed_after : option nat }.

Definition settled_count (l : list (PromiseState ImageFile)) : nat :=
  length (filter (fun p => is_settled p = true) l).

(** The [for] loop has sent all the requests; nothing has settled.
    [Promise.all] of no promise is fulfilled at once. *)
Definition start (numberOfImages : nat) : Loop :=
  {| imagePromises := replicate numberOfImages Pending;
     values := replicate numberOfImages None;
     remaining := numberOfImages;
     awaited := if numberOfImages =? 0 then Fulfilled [] else Pending;
     resumed_after := if numberOfImages =? 0 then Some 0 else None |}.

(** The event loop runs the completion of slot [i]: the promise of the
    slot settles, then the reaction [Promise.all] attached to it runs.
    A promise settles once: an event for a slot that is settled, or
    that does not exist, changes nothing. *)
Definition settle (env : ImageProvider) (prompt : string) (i : nat) (s : Loop)
  : Loop :=
  match imagePromises s !! i with
  | Some Pending =>
      let r := imagePromise env prompt i in
      let promises' := <[i := settle_with r]> (imagePromises s) in
      let values' :=
        match r with Ok f => <[i := Some f]> (values s) | Throw _ => values s end in
      let remaining' :=
        match r with Ok _ => remaining s - 1 | Throw _ => remaining s end in
      let awaited' :=
        match awaited s with
        | Pending =>
            match r with
            | Throw err => Rejected err
            | Ok _ =>
                if remaining' =? 0 then Fulfilled (omap id values') else Pending
            end
        | p => p
        end in
      {| imagePromises := promises';
         values := values';
         remaining := remaining';
         awaited := awaited';
         resumed_after :=
           match resumed_after s with
           | Some k => Some k
           | None =>
               if is_settled awaited' then Some (settled_count promises')
               else None
           end |}
  | _ => s
  end.

(** The completions run in the order of the schedule. *)
Definition run (env : ImageProvider) (prompt : string) (schedule : list nat)
    (s : Loop) : Loop :=
  fold_left (fun s i => settle env prompt i s) schedule s.

(** [generateImages]: what the [await] yields, and the loop state. *)
Definition generateImages (env : ImageProvider) (prompt : string)
    (numberOfImages : nat) (schedule : list nat) : Loop :=
  run env prompt schedule (start numberOfImages).

Definition result_of (s : Loop) : Outcome (list ImageFile) :=
  match awaited s with
  | Pending => Running
  | Fulfilled imageFiles => Returned imageFiles
  | Rejected err => Threw err
  end.

(** The asset of slot [i] when its call succeeds. *)
Definition asset_of (env : ImageProvider) (prompt : string) (i : nat)
  : option ImageFile :=
  match imagePromise env prompt i with
  | Ok f => Some f
  | Throw _ => None
  end.

(** The assets of the calls that succeed, in slot order. *)
Definition successful_assets (env : ImageProvider) (prompt : string)
    (numberOfImages : nat) : list ImageFile :=
  omap (asset_of env prompt) (seq 0 numberOfImages).

(** The specification's wording for [generateImages]: the [await]
    resumes when all the calls have settled, and yields the assets of the
    calls that succeeded. *)
Definition returns_successes_after_settlement (env : ImageProvider)
    (prompt : string) (numberOfImages : nat) (schedule : list nat) : Prop :=
  let s := generateImages env prompt numberOfImages schedule in
  resumed_after s = Some numberOfImages ∧
  result_of s = Returned (successful_assets env prompt numberOfImages).

End GeminiService.

(** ** ImageGalleryDialog: selection among the accumulated images *)

Module ImageGalleryDialog.

(** The updater [toggleSelection] passes to [setSelectedIndices]. *)
Definition toggleSelection (maxSelectable index : nat) (prev : list nat)
  : list nat :=
  if bool_decide (index ∈ prev) then filter (fun i => i ≠ index) prev
  else if bool_decide (length prev < maxSelectable) then prev ++ [index]
  else prev.

(** A sequence of clicks on tiles, oldest first. *)
Definition clicks (maxSelectable : nat) (indices : list nat) (prev : list nat)
  : list nat :=
  fold_left (fun sel i => toggleSelection maxSelectable i sel) indices prev.

(** [handleAddSelected]: the images handed to [onAddImages], one per
    selected index in the order of selection; an index with no image
    gives [undefined] ([None]). *)
Definition handleAddSelected (images : list ImageFile)
    (selectedIndices : list nat) : list (option ImageFile) :=
  map (λ index, images !! index) selectedIndices.

End ImageGalleryDialog.

(** ** components/ImageGenerationDialog.tsx: the dialog that awaits
  [generateImages] *)

Module ImageGenerationDialog.

Import GeminiService.

Record State := {
  prompt : string;
  numberOfImages : nat;
  generatedImages : list ImageFile;
  selectedIndices : list nat;
  isLoading : bool;
  error : option string }.

Definition unknown_error : string := "An unknown error occurred.".

Definition message_of (err : Thrown) : string :=
  match err with
  | ErrorObject message => message
  | NonError _ => unknown_error
  end.

(** [handleGenerate] up to the point the event loop has run the
    completions of [schedule]. *)
Definition handleGenerate (env : ImageProvider) (schedule : list nat)
    (st : State) : State :=
  if negb (truthy (trim (prompt st))) then
    {| prompt := prompt st;
       numberOfImages := numberOfImages st;
       generatedImages := generatedImages st;
       selectedIndices := selectedIndices st;
       isLoading := isLoading st;
       error := Some "Please enter a prompt." |}
  else
    match result_of (generateImages env (prompt st) (numberOfImages st) schedule) with
    | Returned images =>
        {| prompt := prompt st;
           numberOfImages := numberOfImages st;
           generatedImages := images;
           selectedIndices := [];
           isLoading := false;
           error := None |}
    | Threw err =>
        {| prompt := prompt st;
           numberOfImages := numberOfImages st;
           generatedImages := [];
           selectedIndices := [];
           isLoading := false;
           error := Some ("Failed to generate images: " +:+ message_of err) |}
    | Running =>
        {| prompt := prompt st;
           numberOfImages := numberOfImages st;
           generatedImages := [];
           selectedIndices := [];
           isLoading := true;
           error := None |}
    end.

Definition toggleSelection (maxImagesToAdd index : nat) (prev : list nat)
  : list nat :=
  if bool_decide (index ∈ prev) then filter (fun i => i ≠ index) prev
  else if bool_decide (length prev < maxImagesToAdd) then prev ++ [index]
  else prev.

Definition handleAddSelected (st : State) : list (option ImageFile) :=
  map (λ index, generatedImages st !! index) (selectedIndices st).

Definition initial (initialPrompt : string) : State :=
  {| prompt := initialPrompt;
     numberOfImages := 2;
     generatedImages := [];
     selectedIndices := [];
     isLoading := false;
     error := None |}.

Definition setPrompt (s : string) (st : State) : State :=
  {| prompt := s;
     numberOfImages := numberOfImages st;
     generatedImages := generatedImages st;
     selectedIndices := selectedIndices st;
     isLoading := isLoading st;
     error := error st |}.

Definition setNumberOfImages (n : nat) (st : State) : State :=
  {| prompt := prompt st;
     numberOfImages := n;
     generatedImages := generatedImages st;
     selectedIndices := selectedIndices st;
     isLoading := isLoading st;
     error := error st |}.

Definition setSelectedIndices (f : list nat → list nat) (st : State) : State :=
  {| prompt := prompt st;
     numberOfImages := numberOfImages st;
     generatedImages := generatedImages st;
     selectedIndices := f (selectedIndices st);
     isLoading := isLoading st;
     error := error st |}.

(** The grid of images is rendered when the dialog is neither loading
    nor showing an error; it has one tile per generated image. *)
Definition tile_shown (st : State) (index : nat) : bool :=
  negb (isLoading st) && negb (truthy_opt (error st)) &&
  bool_decide (index < length (generatedImages st)).

(** What the user can do. A click on Generate is taken together with
    the completions the event loop runs for it; the button is disabled
    while the dialog is loading. What is typed while a batch is loading
    does not reach the batch, whose closure holds the prompt and the
    count it was started with. *)
Inductive Action :=
| TypePrompt (s : string)
| ChooseNumber (n : nat)
| ClickGenerate (schedule : list nat)
| ClickTile (index : nat).

Definition step (env : ImageProvider) (maxImagesToAdd : nat) (st : State)
    (a : Action) : State :=
  match a with
  | TypePrompt s => setPrompt s st
  | ChooseNumber n => setNumberOfImages n st
  | ClickGenerate schedule =>
      if isLoading st then st else handleGenerate env schedule st
  | ClickTile index =>
      if tile_shown st index
      then setSelectedIndices (toggleSelection maxImagesToAdd index) st
      else st
  end.

Definition steps (env : ImageProvider) (maxImagesToAdd : nat)
    (acts : list Action) (st : State) : State :=
  fold_left (step env maxImagesToAdd) acts st.

(** The selection holds distinct indices of generated images, no more
    than the maximum. *)
Definition selection_valid (maxImagesToAdd : nat) (st : State) : Prop :=
  NoDup (selectedIndices st) ∧
  length (selectedIndices st) ≤ maxImagesToAdd ∧
  ∀ i, i ∈ selectedIndices st → i < length (generatedImages st).

End ImageGenerationDialog.

(** ** The image-generation dialog with a status per slot, which sends
  the requests itself and awaits [Promise.allSettled] *)

Module ImageGenerationDialogStatus.

Import GeminiService.

Inductive Status := pending | success | error.

#[global] Instance Status_eq_dec : EqDecision Status.
Proof. solve_decision. Defined.

Record GenerationResult := {
  status : Status;
  data : option ImageFile;
  error_message : option string }.

Inductive GenerationStatus := idle | generating | finished.

#[global] Instance GenerationStatus_eq_dec : EqDecision GenerationStatus.
Proof. solve_decision. Defined.

Record Props := {
  initialPrompt : string;
  maxImagesToAdd : nat;
  onImagesGenerated : list ImageFile -> Result unit }.

(** The component's state, and what the closures of the batch in flight
    hold: the prompt they were created with and the slots whose promise
    has not settled. *)
Record State := {
  prompt : string;
  numberOfImages : nat;
  generationStatus : GenerationStatus;
  generationResults : list (option GenerationResult);
  selectedIndices : list nat;
  batchPrompt : string;
  unsettled : list nat }.

Definition initial (props : Props) : State :=
  {| prompt := initialPrompt props;
     numberOfImages := 2;
     generationStatus := idle;
     generationResults := [];
     selectedIndices := [];
     batchPrompt := "";
     unsettled := [] |}.

Definition setGenerationResults
    (f : list (option GenerationResult) -> list (option GenerationResult))
    (st : State) : State :=
  {| prompt := prompt st;
     numberOfImages := numberOfImages st;
     generationStatus := generationStatus st;
     generationResults := f (generationResults st);
     selectedIndices := selectedIndices st;
     batchPrompt := batchPrompt st;
     unsettled := unsettled st |}.

Definition setGenerationStatus (g : GenerationStatus) (st : State) : State :=
  {| prompt := prompt st;
     numberOfImages := numberOfImages st;
     generationStatus := g;
     generationResults := generationResults st;
     selectedIndices := selectedIndices st;
     batchPrompt := batchPrompt st;
     unsettled := unsettled st |}.

Definition setSelectedIndices (f : list nat -> list nat) (st : State) : State :=
  {| prompt := prompt st;
     numberOfImages := numberOfImages st;
     generationStatus := generationStatus st;
     generationResults := generationResults st;
     selectedIndices := f (selectedIndices st);
     batchPrompt := batchPrompt st;
     unsettled := unsettled st |}.

Definition setPrompt (s : string) (st : State) : State :=
  {| prompt := s;
     numberOfImages := numberOfImages st;
     generationStatus := generationStatus st;
     generationResults := generationResults st;
     selectedIndices := selectedIndices st;
     batchPrompt := batchPrompt st;
     unsettled := unsettled st |}.

Definition setNumberOfImages (n : nat) (st : State) : State :=
  {| prompt := prompt st;
     numberOfImages := n;
     generationStatus := generationStatus st;
     generationResults := generationResults st;
     selectedIndices := selectedIndices st;
     batchPrompt := batchPrompt st;
     unsettled := unsettled st |}.

Definition set_batch (p : string) (slots : list nat) (st : State) : State :=
  {| prompt := prompt st;
     numberOfImages := numberOfImages st;
     generationStatus := generationStatus st;
     generationResults := generationResults st;
     selectedIndices := selectedIndices st;
     batchPrompt := p;
     unsettled := slots |}.

Definition pending_result : GenerationResult :=
  {| status := pending; data := None; error_message := None |}.

Definition success_result (imageFile : ImageFile) : GenerationResult :=
  {| status := success; data := Some imageFile; error_message := None |}.

Definition error_result (message : string) : GenerationResult :=
  {| status := error; data := None; error_message := Some message |}.

Definition enter_a_prompt : string :=
  "Please enter a prompt to generate images.".

Definition unknown_error : string := "An unknown error occurred.".

Definition no_image_data : string := "No image data returned.".

(** [handleGenerate] up to its [await]: the requests are sent and every
    slot is pending. [Promise.allSettled] of no promise resolves at
    once. *)
Definition handleGenerate (st : State) : State :=
  if negb (truthy (trim (prompt st))) then
    setGenerationStatus finished
      (setGenerationResults (fun _ => [Some (error_result enter_a_prompt)]) st)
  else
    let n := numberOfImages st in
    let st := setGenerationStatus generating st in
    let st := setSelectedIndices (fun _ => []) st in
    let initialResults := replicate n (Some pending_result) in
    let st := setGenerationResults (fun _ => initialResults) st in
    let st := set_batch (prompt st) (seq 0 n) st in
    if n =? 0 then setGenerationStatus finished st else st.

(** The request of slot [i] and the part of its [then] callback that
    obtains the image. *)
Definition imageData (env : ImageProvider) (prompt : string) (i : nat)
  : Result ImageFile :=
  match generateContent env i prompt with
  | Throw err => Throw err
  | Ok response =>
      match partsOf response with
      | Throw err => Throw err
      | Ok ps =>
          match firstInlineData ps with
          | Some base64ImageBytes => base64ToImageFile env base64ImageBytes i
          | None => Throw (ErrorObject no_image_data)
          end
      end
  end.

(** The message the [catch] callback records:
    [err instanceof Error ? err.message : 'An unknown error occurred.']. *)
Definition message_of (err : Thrown) : string :=
  match err with
  | ErrorObject message => message
  | NonError _ => unknown_error
  end.

(** The [catch] callback of slot [i]. *)
Definition on_rejected (i : nat) (err : Thrown) (st : State) : State :=
  setGenerationResults (array_set i (error_result (message_of err))) st.

(** The outcome of the whole promise chain of slot [i], as
    [Promise.allSettled] sees it. *)
Definition slotPromise (env : ImageProvider) (props : Props)
    (prompt : string) (i : nat) : Result ImageFile :=
  match imageData env prompt i with
  | Ok imageFile =>
      match onImagesGenerated props [imageFile] with
      | Ok _ => Ok imageFile
      | Throw err => Throw err
      end
  | Throw err => Throw err
  end.

(** The event loop runs the completion of slot [i] of the batch in
    flight: the [then] callback and, if something was thrown, the
    [catch] callback; when it was the last one, [handleGenerate]
    resumes after its [await]. *)
Definition complete (env : ImageProvider) (props : Props) (i : nat)
    (st : State) : State :=
  if bool_decide (i ∈ unsettled st) then
    let st :=
      match imageData env (batchPrompt st) i with
      | Ok imageFile =>
          let st :=
            setGenerationResults (array_set i (success_result imageFile)) st in
          match onImagesGenerated props [imageFile] with
          | Ok _ => st
          | Throw err => on_rejected i err st
          end
      | Throw err => on_rejected i err st
      end in
    let rest := filter (fun j => j ≠ i) (unsettled st) in
    let st := set_batch (batchPrompt st) rest st in
    if bool_decide (rest = []) then setGenerationStatus finished st else st
  else st.

(** [r.status === 'success'] on a slot of the status array. A slot that
    reads as [undefined] is not a success; no state of the dialog has
    one ([slots_defined]). *)
Definition is_success (r : option GenerationResult) : bool :=
  match r with
  | Some r => bool_decide (status r = success)
  | None => false
  end.

Definition successfulImagesCount (results : list (option GenerationResult))
  : nat :=
  length (filter (fun r => is_success r = true) results).

Definition toggleSelection (props : Props) (index : nat) (st : State) : State :=
  if negb (is_success (array_get index (generationResults st))) then st
  else
    setSelectedIndices
      (fun prev =>
         if bool_decide (index ∈ prev) then filter (fun i => i ≠ index) prev
         else
           let maxCanSelect :=
             Nat.min (maxImagesToAdd props)
                     (successfulImagesCount (generationResults st)) in
           if bool_decide (length prev < maxCanSelect) then prev ++ [index]
           else prev)
      st.

(** What the user and the event loop can do to the dialog. The
    textarea, the select and the Generate button are disabled while a
    batch is generating. *)
Inductive Action :=
| TypePrompt (s : string)
| ChooseNumber (n : nat)
| ClickGenerate
| Complete (i : nat)
| ClickTile (index : nat).

Definition step (env : ImageProvider) (props : Props) (st : State)
    (a : Action) : State :=
  match a with
  | TypePrompt s =>
      if bool_decide (generationStatus st = generating) then st
      else setPrompt s st
  | ChooseNumber n =>
      if bool_decide (generationStatus st = generating) then st
      else setNumberOfImages n st
  | ClickGenerate =>
      if bool_decide (generationStatus st = generating) then st
      else handleGenerate st
  | Complete i => complete env props i st
  | ClickTile index => toggleSelection props index st
  end.

Definition steps (env : ImageProvider) (props : Props) (acts : list Action)
    (st : State) : State :=
  fold_left (step env props) acts st.

(** The images [handleAddSelected] hands to [onAddImages]. *)
Definition handleAddSelected (st : State) : list ImageFile :=
  omap (fun index =>
          match array_get index (generationResults st) with
          | Some r => data r
          | None => None
          end)
       (selectedIndices st).

(** What slot [i] shows once its promise chain has run. *)
Definition outcome_result (env : ImageProvider) (props : Props)
    (prompt : string) (i : nat) : GenerationResult :=
  match slotPromise env props prompt i with
  | Ok imageFile => success_result imageFile
  | Throw err => error_result (message_of err)
  end.

(** The status array of a batch of [n] requests after the completions of
    [settled] have run. *)
Definition batch_results (env : ImageProvider) (props : Props)
    (prompt : string) (n : nat) (settled : list nat)
  : list (option GenerationResult) :=
  slot_map n settled (λ i, Some (outcome_result env props prompt i))
           (Some pending_result).

(** The completions of a batch, in the order of a schedule. *)
Definition completions (schedule : list nat) : list Action :=
  map Complete schedule.

(** The status a slot shows, and the two properties of the selection. *)
Definition status_at (st : State) (i : nat) : option Status :=
  status <$> array_get i (generationResults st).

(** The specification's wording for the message of a failed slot: what
    was thrown carries no message when it has no [message] or an empty
    one, and the slot then shows the generic string. *)
Definition carries_no_message (err : Thrown) : Prop :=
  carried_message err = None ∨ carried_message err = Some "".

Definition generic_when_no_message (env : ImageProvider) (props : Props)
    (st0 : State) (settled : list nat) (i : nat) (err : Thrown) : Prop :=
  carries_no_message err →
  array_get i
    (generationResults
       (steps env props (ClickGenerate :: completions settled) st0))
    ≫= error_message = Some "An unknown error occurred.".

Definition selection_refers_to_success (st : State) : Prop :=
  ∀ i, i ∈ selectedIndices st → status_at st i = Some success.

Definition selection_within_bound (props : Props) (st : State) : Prop :=
  length (selectedIndices st) ≤
  Nat.min (maxImagesToAdd props)
          (successfulImagesCount (generationResults st)).

(** The slots of the requests in flight are pending, requests are in
    flight only while the dialog is generating, and no slot of the status
    array is [undefined]. *)
Definition in_flight_pending (st : State) : Prop :=
  ∀ i, i ∈ unsettled st → status_at st i = Some pending.

Definition flight_only_while_generating (st : State) : Prop :=
  generationStatus st ≠ generating → unsettled st = [].

Definition slots_defined (st : State) : Prop :=
  Forall is_Some (generationResults st).

Definition flight_consistent (st : State) : Prop :=
  in_flight_pending st ∧ flight_only_while_generating st ∧ slots_defined st.

Definition consistent (props : Props) (st : State) : Prop :=
  flight_consistent st ∧
  selection_refers_to_success st ∧ selection_within_bound props st.

(** A click on Generate with a blank prompt while something is
    selected. *)
Definition blank_generate (st : State) (a : Action) : Prop :=
  a = ClickGenerate ∧ generationStatus st ≠ generating ∧
  truthy (trim (prompt st)) = false ∧ selectedIndices st ≠ [].

(** A run in which that never happens. *)
Fixpoint without_blank_generate (env : ImageProvider) (props : Props)
    (st : State) (acts : list Action) : Prop :=
  match acts with
  | [] => True
  | a :: acts' =>
      ¬ blank_generate st a ∧
      without_blank_generate env props (step env props st a) acts'
  end.

(** [r.status === 'error'] on a slot of the status array. *)
Definition is_error (r : option GenerationResult) : bool :=
  match r with
  | Some r => bool_decide (status r = error)
  | None => false
  end.

Definition errorCount (results : list (option GenerationResult)) : nat :=
  length (filter (fun r => is_error r = true) results).

(** [renderStatusMessage]: the class and the text of the paragraph
    rendered under the grid, if any. A missing [error] renders as no
    text. *)
Definition renderStatusMessage (st : State) : option (string * string) :=
  if negb (bool_decide (generationStatus st = finished)) then None
  else
    let successCount := successfulImagesCount (generationResults st) in
    let errorCount := errorCount (generationResults st) in
    if (length (generationResults st) =? 1) && (errorCount =? 1)
       && (successCount =? 0)
    then Some ("text-red-300",
               default "" (array_get 0 (generationResults st) ≫= error_message))
    else if (errorCount =? 0) && (0 <? successCount)
    then Some ("text-green-400",
               "Successfully generated " +:+ pretty successCount +:+ " image(s).")
    else if (0 <? successCount) && (0 <? errorCount)
    then Some ("text-yellow-400",
               "Generated " +:+ pretty successCount +:+ " image(s), but "
               +:+ pretty errorCount +:+ " failed.")
    else if (0 <? errorCount) && (successCount =? 0)
    then Some ("text-red-400", "Failed to generate any images.")
    else None.

(** The three shapes of a slot: pending with neither image nor message,
    success with an image, error with a message. *)
Definition well_shaped (r : GenerationResult) : Prop :=
  r = pending_result ∨
  (∃ imageFile, r = success_result imageFile) ∨
  (∃ message, r = error_result message).

Definition slots_well_shaped (st : State) : Prop :=
  Forall (λ o, ∃ r, o = Some r ∧ well_shaped r) (generationResults st).

Definition pending_only_in_flight (st : State) : Prop :=
  ∀ i, status_at st i = Some pending → i ∈ unsettled st.

Definition selection_bounded (props : Props) (st : State) : Prop :=
  NoDup (selectedIndices st) ∧
  length (selectedIndices st) ≤ maxImagesToAdd props.

Definition tidy (props : Props) (st : State) : Prop :=
  flight_consistent st ∧ slots_well_shaped st ∧ pending_only_in_flight st ∧
  selection_bounded props st.


End ImageGenerationDialogStatus.

(** ** Concrete requests and providers, for the examples *)

Module Examples.

Import GeminiService.

Definition png (n : string) : ImageFile :=
  {| file := {| file_name := n;
                file_type := "image/png";
                file_blob := {| blob_bytes := n; blob_type := "image/png" |} |};
     base64 := "iVBORw0KGgo=" |}.

Definition text_params : GenerateVideoParams :=
  {| prompt := Some "a red kite over the sea";
     model := "veo-3.1-fast-generate-preview";
     aspectRatio := Some "16:9";
     resolution := "720p";
     mode := TEXT_TO_VIDEO;
     startFrame := None;
     endFrame := None;
     referenceImages := None;
     styleImage := None;
     inputVideoObject := None;
     isLooping := false |}.

Definition with_mode (m : GenerationMode) (p : GenerateVideoParams)
  : GenerateVideoParams :=
  {| prompt := prompt p;
     model := model p;
     aspectRatio := aspectRatio p;
     resolution := resolution p;
     mode := m;
     startFrame := startFrame p;
     endFrame := endFrame p;
     referenceImages := referenceImages p;
     styleImage := styleImage p;
     inputVideoObject := inputVideoObject p;
     isLooping := isLooping p |}.

Definition with_frames (first last : option ImageFile) (looping : bool)
    (p : GenerateVideoParams) : GenerateVideoParams :=
  {| prompt := prompt p;
     model := model p;
     aspectRatio := aspectRatio p;
     resolution := resolution p;
     mode := FRAMES_TO_VIDEO;
     startFrame := first;
     endFrame := last;
     referenceImages := referenceImages p;
     styleImage := styleImage p;
     inputVideoObject := inputVideoObject p;
     isLooping := looping |}.

Definition with_video (v : option Video) (p : GenerateVideoParams)
  : GenerateVideoParams :=
  {| prompt := prompt p;
     model := model p;
     aspectRatio := aspectRatio p;
     resolution := resolution p;
     mode := EXTEND_VIDEO;
     startFrame := startFrame p;
     endFrame := endFrame p;
     referenceImages := referenceImages p;
     styleImage := styleImage p;
     inputVideoObject := v;
     isLooping := isLooping p |}.

Definition looping_params : GenerateVideoParams :=
  with_frames (Some (png "first.png")) None true text_params.

Definition extend_params : GenerateVideoParams := with_video None text_params.

Definition clip : Video :=
  {| uri := Some "https://provider.example/files/clip-1?alt=media";
     videoBytes := None;
     video_mimeType := Some "video/mp4" |}.

(** The [k]-th handle of an operation that is done from its
    [doneAt]-th handle on, counted from 0. *)
Definition handle (doneAt k : nat) : Operation :=
  {| op_name := "operations/" +:+ pretty k;
     done := if k <? doneAt then None else Some true;
     response :=
       if k <? doneAt then None
       else Some {| generatedVideos := Some [{| video := Some clip |}] |} |}.

Definition mp4 : Blob := {| blob_bytes := "ftypisom"; blob_type := "video/mp4" |}.

(** A provider whose handle completes at the third check, and whose
    asset endpoint answers with the given status. *)
Definition provider (st : nat) (reason : string) : Provider :=
  {| API_KEY := "k";
     generateVideos := fun _ => Ok (handle 2 0);
     getVideosOperation := fun k _ => Ok (handle 2 (S k));
     fetch := fun _ =>
       Ok {| status := st; statusText := reason; body := Ok mp4 |};
     decodeURIComponent := fun s => Ok s;
     createObjectURL := fun _ => "blob:1" |}.

(** The request [generateVideo] builds from [text_params]. *)
Definition text_payload : Payload :=
  {| pl_model := "veo-3.1-fast-generate-preview";
     pl_config := {| numberOfVideos := 1;
                     cfg_resolution := "720p";
                     cfg_aspectRatio := Some "16:9";
                     lastFrame := None;
                     cfg_referenceImages := None |};
     pl_prompt := Some "a red kite over the sea";
     pl_image := None;
     pl_video := None |}.

Definition clip_url : string := "https://provider.example/files/clip-1?alt=media".

Definition clip_response : GenerateVideosResponse :=
  {| generatedVideos := Some [{| video := Some clip |}] |}.

(** The trace of a run on [provider] up to the exit of the loop. *)
Definition three_checks : list Event :=
  [GenerateVideos text_payload;
   CheckDone (handle 2 0); SetTimeout 10000%N; GetVideosOperation (handle 2 0);
   CheckDone (handle 2 1); SetTimeout 10000%N; GetVideosOperation (handle 2 1);
   CheckDone (handle 2 2)].

(** An answer with a text part followed by an image part. *)
Definition inline (d : string) : GenerateContentResponse :=
  {| candidates :=
       Some [{| content :=
                  Some {| parts :=
                            Some [{| inlineData := None; text := Some "Here it is." |};
                                  {| inlineData := Some d; text := None |}] |} |}] |}.

(** An image provider whose request for slot [i] is rejected with
    [bad i] when there is one, and answers an image otherwise. *)
Definition flaky (bad : nat → option Thrown) : ImageProvider :=
  {| generateContent := λ i _,
       match bad i with
       | Some err => Throw err
       | None => Ok (inline "aGVsbG8=")
       end;
     fetchData := λ url, Ok {| blob_bytes := url; blob_type := "image/png" |} |}.

Definition only (slot : nat) (err : Thrown) (i : nat) : option Thrown :=
  if i =? slot then Some err else None.

Definition generated (i : nat) : ImageFile :=
  {| file := {| file_name := "generated-image-" +:+ pretty i +:+ ".png";
                file_type := "image/png";
                file_blob := {| blob_bytes := "data:image/png;base64,aGVsbG8=";
                                blob_type := "image/png" |} |};
     base64 := "aGVsbG8=" |}.

Definition dialog_props : ImageGenerationDialogStatus.Props :=
  {| ImageGenerationDialogStatus.initialPrompt := "a cat";
     ImageGenerationDialogStatus.maxImagesToAdd := 2;
     ImageGenerationDialogStatus.onImagesGenerated := λ _, Ok tt |}.

(** Props whose [onImagesGenerated] throws. *)
Definition throwing_props : ImageGenerationDialogStatus.Props :=
  {| ImageGenerationDialogStatus.initialPrompt := "a cat";
     ImageGenerationDialogStatus.maxImagesToAdd := 2;
     ImageGenerationDialogStatus.onImagesGenerated :=
       λ _, Throw (ErrorObject "gallery is full") |}.

Definition four_images : ImageGenerationDialogStatus.State :=
  ImageGenerationDialogStatus.setNumberOfImages 4
    (ImageGenerationDialogStatus.initial dialog_props).

Definition with_references (imgs : option (list ImageFile))
    (style : option ImageFile) (p : GenerateVideoParams) : GenerateVideoParams :=
  {| prompt := prompt p;
     model := model p;
     aspectRatio := aspectRatio p;
     resolution := resolution p;
     mode := REFERENCES_TO_VIDEO;
     startFrame := startFrame p;
     endFrame := endFrame p;
     referenceImages := imgs;
     styleImage := style;
     inputVideoObject := inputVideoObject p;
     isLooping := isLooping p |}.

Definition references_params : GenerateVideoParams :=
  with_references (Some [png "kite.png"; png "sea.png"]) (Some (png "ink.png"))
    text_params.

Definition continue_params : GenerateVideoParams :=
  with_video (Some clip) text_params.

(** A handle that is not done. *)
Definition waiting (k : nat) : Operation :=
  {| op_name := "operations/" +:+ pretty k; done := Some false; response := None |}.

(** U+00A0 NO-BREAK SPACE, in UTF-8. *)
Definition no_break_space : string :=
  String (ascii_of_nat 194) (String (ascii_of_nat 160) "").

(** A provider whose handle completes at the third check and whose
    asset endpoint answers 200 with a body that cannot be read. *)
Definition unreadable : Provider :=
  {| API_KEY := "k";
     generateVideos := fun _ => Ok (handle 2 0);
     getVideosOperation := fun k _ => Ok (handle 2 (S k));
     fetch := fun _ =>
       Ok {| status := 200; statusText := "OK";
             body := Throw (ErrorObject "network error") |};
     decodeURIComponent := fun s => Ok s;
     createObjectURL := fun _ => "blob:1" |}.

(** A provider that refuses the submission. *)
Definition refusing : Provider :=
  {| API_KEY := "k";
     generateVideos := fun _ => Throw (ErrorObject "403 Forbidden");
     getVideosOperation := fun k _ => Ok (waiting (S k));
     fetch := fun _ => Throw (ErrorObject "Failed to fetch");
     decodeURIComponent := fun s => Ok s;
     createObjectURL := fun _ => "blob:1" |}.

(** A provider whose operation never completes. *)
Definition stalling : Provider :=
  {| API_KEY := "k";
     generateVideos := fun _ => Ok (waiting 0);
     getVideosOperation := fun k _ => Ok (waiting (S k));
     fetch := fun _ => Throw (ErrorObject "Failed to fetch");
     decodeURIComponent := fun s => Ok s;
     createObjectURL := fun _ => "blob:1" |}.

(** A provider whose second poll throws. *)
Definition breaking : Provider :=
  {| API_KEY := "k";
     generateVideos := fun _ => Ok (waiting 0);
     getVideosOperation := fun k _ =>
       if k =? 1 then Throw (ErrorObject "500 Internal") else Ok (waiting (S k));
     fetch := fun _ => Throw (ErrorObject "Failed to fetch");
     decodeURIComponent := fun s => Ok s;
     createObjectURL := fun _ => "blob:1" |}.

End Examples.

(** * Properties *)

(** ** Facts on lists *)

Section ListFacts.

Context {A : Type} (P Q : A → Prop).
Context `{!∀ x, Decision (P x), !∀ x, Decision (Q x)}.

Lemma filter_ext_in (l : list A) :
  (∀ x, x ∈ l → (P x ↔ Q x)) → filter P l = filter Q l.
Proof.
  induction l as [|a l IH]; intros Hiff; [done|].
  rewrite !filter_cons.
  rewrite IH by (intros x Hx; apply Hiff; by right).
  apply decide_ext, Hiff. by left.
Qed.

Lemma filter_all (l : list A) :
  (∀ x, x ∈ l → P x) → filter P l = l.
Proof.
  induction l as [|a l IH]; intros Hall; [done|].
  rewrite filter_cons_True by (apply Hall; by left).
  rewrite IH; [done|]. intros x Hx. apply Hall. by right.
Qed.

Lemma filter_none (l : list A) :
  (∀ x, x ∈ l → ¬ P x) → filter P l = [].
Proof.
  induction l as [|a l IH]; intros Hnone; [done|].
  rewrite filter_cons_False by (apply Hnone; by left).
  apply IH. intros x Hx. apply Hnone. by right.
Qed.

End ListFacts.

Section SlotMap.

Context {A : Type} (n : nat) (f : nat → A) (d : A).

Lemma length_slot_map settled : length (slot_map n settled f d) = n.
Proof. unfold slot_map. by rewrite length_map, length_seq. Qed.

Lemma slot_map_lookup settled j :
  j < n →
  slot_map n settled f d !! j =
    Some (if bool_decide (j ∈ settled) then f j else d).
Proof.
  intros Hlt. unfold slot_map. change (map ?g ?l) with (g <$> l).
  rewrite list_lookup_fmap, lookup_seq_lt by done. done.
Qed.

Lemma slot_map_settle settled i :
  i < n →
  <[i := f i]> (slot_map n settled f d) = slot_map n (settled ++ [i]) f d.
Proof.
  intros Hlt. apply list_eq. intros j.
  destruct (decide (j < n)) as [Hj|Hj].
  - rewrite (slot_map_lookup (settled ++ [i])) by done.
    destruct (decide (i = j)) as [->|Hne].
    + rewrite list_lookup_insert_eq by (by rewrite length_slot_map).
      rewrite bool_decide_eq_true_2; [done|].
      rewrite elem_of_app, list_elem_of_singleton. by right.
    + rewrite list_lookup_insert_ne, slot_map_lookup by done.
      rewrite (bool_decide_ext (j ∈ settled ++ [i]) (j ∈ settled)); [done|].
      rewrite elem_of_app, list_elem_of_singleton.
      split; [|tauto]. intros [Hj'| ->]; [done|]. by contradict Hne.
  - rewrite !lookup_ge_None_2;
      rewrite ?length_insert, ?length_slot_map; [done | lia | lia].
Qed.

Lemma slot_map_ignore settled i :
  (i < n → i ∈ settled) →
  slot_map n (settled ++ [i]) f d = slot_map n settled f d.
Proof.
  intros Hi. unfold slot_map. apply map_ext_in. intros j Hj.
  apply in_seq in Hj.
  rewrite (bool_decide_ext (j ∈ settled ++ [i]) (j ∈ settled)); [done|].
  rewrite elem_of_app, list_elem_of_singleton.
  split; [|tauto]. intros [Hj'| ->]; [done|]. apply Hi. lia.
Qed.

Lemma slot_map_nil : slot_map n [] f d = replicate n d.
Proof.
  unfold slot_map. generalize 0.
  induction n as [|m IH]; intros a; simpl; [done|]. by rewrite IH.
Qed.

Lemma slot_map_full settled :
  (∀ i, i < n → i ∈ settled) → slot_map n settled f d = map f (seq 0 n).
Proof.
  intros Hall. unfold slot_map. apply map_ext_in. intros j Hj.
  apply in_seq in Hj. rewrite bool_decide_eq_true_2; [done|].
  apply Hall. lia.
Qed.

End SlotMap.

(** ** The request builder *)

Section RequestBuilder.

Import GeminiService.

Variable params : GenerateVideoParams.

(** The three modes other than EXTEND_VIDEO always build a request. *)
Lemma buildPayload_total :
  mode params ≠ EXTEND_VIDEO → ∃ payload, buildPayload params = Ok payload.
Proof.
  intros Hmode. unfold buildPayload.
  repeat case_decide; try congruence; eauto.
  - destruct (if isLooping params then _ else _); eauto.
  - destruct (0 <? _); eauto.
Qed.

(** An EXTEND_VIDEO request is built exactly when the source video is
    there. *)
Lemma buildPayload_extend :
  mode params = EXTEND_VIDEO →
  buildPayload params =
    match inputVideoObject params with
    | Some v =>
        Ok (set_video v
              {| pl_model := model params;
                 pl_config := {| numberOfVideos := 1;
                                 cfg_resolution := resolution params;
                                 cfg_aspectRatio := None;
                                 lastFrame := None;
                                 cfg_referenceImages := None |};
                 pl_prompt := if truthy_opt (prompt params)
                              then prompt params else None;
                 pl_image := None;
                 pl_video := None |})
    | None => Throw (ErrorObject missing_input_video)
    end.
Proof.
  intros Hmode. unfold buildPayload. rewrite Hmode.
  repeat case_decide; try congruence.
  destruct (inputVideoObject params); [|done].
  by destruct (truthy_opt (prompt params)).
Qed.

(** The aspect ratio of a built request, mode by mode. *)
Lemma buildPayload_aspectRatio payload :
  buildPayload params = Ok payload →
  cfg_aspectRatio (pl_config payload) =
    if decide (mode params = EXTEND_VIDEO) then None else aspectRatio params.
Proof.
  unfold buildPayload.
  repeat case_decide; try congruence; intros Hbuilt.
  - destruct (if isLooping params then _ else _), (startFrame params),
      (truthy_opt (prompt params)); by simplify_eq.
  - destruct (0 <? _), (truthy_opt (prompt params)); by simplify_eq.
  - destruct (inputVideoObject params), (truthy_opt (prompt params));
      by simplify_eq.
  - destruct (truthy_opt (prompt params)); by simplify_eq.
Qed.

(** The end frame of a FRAMES_TO_VIDEO request. *)
Lemma buildPayload_frames :
  mode params = FRAMES_TO_VIDEO →
  ∃ payload,
    buildPayload params = Ok payload ∧
    pl_image payload = toImage <$> startFrame params ∧
    lastFrame (pl_config payload) =
      toImage <$> (if isLooping params then startFrame params
                   else endFrame params).
Proof.
  intros Hmode. unfold buildPayload. rewrite Hmode.
  repeat case_decide; try congruence.
  destruct (if isLooping params then _ else _), (startFrame params),
    (truthy_opt (prompt params)); eexists; split; by eauto.
Qed.

End RequestBuilder.

(** ** The poller and the asset fetcher *)

Section Poller.

Import GeminiService.

Variable env : Provider.

Lemma appends_ret {A} (a : A) : appends (ret a).
Proof. intros t. exists []. by rewrite app_nil_r. Qed.

Lemma appends_throw {A} err : appends (@throw A err).
Proof. intros t. exists []. by rewrite app_nil_r. Qed.

Lemma appends_lift {A} (r : Result A) : appends (lift r).
Proof. destruct r; [apply appends_ret | apply appends_throw]. Qed.

Lemma appends_emit e : appends (emit e).
Proof. intros t. by exists [e]. Qed.

Lemma appends_bind {A B} (m : M A) (k : A → M B) :
  appends m → (∀ a, appends (k a)) → appends (bind m k).
Proof.
  intros Hm Hk t. unfold bind. destruct (Hm t) as [tr Htr].
  destruct (m t) as [[a | err |] t']; simpl in *; subst.
  - destruct (Hk a (t ++ tr)) as [tr' ->]. exists (tr ++ tr').
    by rewrite app_assoc.
  - by exists tr.
  - by exists tr.
Qed.

Create HintDb appends.
#[local] Hint Resolve appends_ret appends_throw appends_lift appends_emit : appends.

Lemma appends_poll fuel : ∀ k operation, appends (poll env fuel k operation).
Proof.
  induction fuel as [|fuel IH]; intros k operation; simpl;
    apply appends_bind; auto with appends; intros _;
    destruct (is_done operation); auto with appends.
  - intros t. exists []. by rewrite app_nil_r.
  - repeat (apply appends_bind; auto with appends; intros ?).
Qed.

Lemma appends_retrieve operation : appends (retrieve env operation).
Proof.
  unfold retrieve.
  repeat (first
    [ progress auto with appends
    | apply appends_bind; [auto with appends | intros ?]
    | match goal with |- appends (match ?x with _ => _ end) => destruct x end
    | match goal with |- appends (if ?x then _ else _) => destruct x end
    | progress simpl ]).
Qed.

(** Once the payload is built, the first thing [generateVideo] does is
    to submit it. *)
Lemma generateVideo_submits fuel params payload :
  buildPayload params = Ok payload →
  ∃ tr, snd (generateVideo env fuel params []) = GenerateVideos payload :: tr.
Proof.
  intros Hbuilt. unfold generateVideo. rewrite Hbuilt.
  assert (Happ : appends
    (do operation <- lift (generateVideos env payload) ;
     do operation <- poll env fuel 0 operation ;
     retrieve env operation)).
  { apply appends_bind; [auto with appends | intros ?].
    apply appends_bind; [apply appends_poll | intros ?].
    apply appends_retrieve. }
  destruct (Happ [GenerateVideos payload]) as [tr Htr].
  exists tr. simpl in *. unfold bind at 1 2; simpl. exact Htr.
Qed.

(** The loop leaves at the first operation whose completion flag is
    set. [ops] is the sequence of handles: the submitted one, then the
    answers of the polls. *)
Lemma flat_map_seq_S {A} (f : nat → list A) a n :
  flat_map f (seq (S a) n) = flat_map (λ j, f (S j)) (seq a n).
Proof.
  revert a. induction n as [|n IH]; intros a; simpl; [done|].
  by rewrite IH.
Qed.

Lemma poll_completes (ops : nat → Operation) (n : nat) :
  ∀ fuel k t,
    n ≤ fuel →
    (∀ j, j < n → is_done (ops (k + j)) = false) →
    (∀ j, j < n →
       getVideosOperation env (k + j) (ops (k + j)) = Ok (ops (k + S j))) →
    is_done (ops (k + n)) = true →
    poll env fuel k (ops k) t =
      (Returned (ops (k + n)),
       t ++ flat_map (λ j, round (ops (k + j))) (seq 0 n)
         ++ [CheckDone (ops (k + n))]).
Proof.
  induction n as [|n IH]; intros fuel k t Hfuel Hnot Hnext Hdone.
  - rewrite Nat.add_0_r in Hdone.
    destruct fuel; simpl; unfold bind, emit; simpl; rewrite Hdone;
      by rewrite Nat.add_0_r.
  - destruct fuel as [|fuel]; [lia|].
    pose proof (Hnot 0 ltac:(lia)) as H0.
    pose proof (Hnext 0 ltac:(lia)) as H1.
    rewrite Nat.add_0_r in H0, H1.
    simpl. unfold bind at 1, emit at 1. simpl. rewrite H0.
    unfold bind at 1, emit at 1. simpl.
    unfold bind at 1, emit at 1. simpl.
    unfold bind at 1. rewrite H1. simpl.
    replace (k + 1) with (S k) by lia.
    rewrite (IH fuel (S k)); [| lia | | | ].
    + rewrite <- !app_assoc. simpl. rewrite Nat.add_0_r, !Nat.add_succ_r.
      rewrite flat_map_seq_S.
      do 6 f_equal. apply flat_map_ext. intros j.
      by rewrite Nat.add_succ_r.
    + intros j Hj. replace (S k + j) with (k + S j) by lia.
      apply Hnot. lia.
    + intros j Hj. replace (S k + j) with (k + S j) by lia.
      replace (S k + S j) with (k + S (S j)) by lia.
      apply Hnext. lia.
    + replace (S k + n) with (k + S n) by lia. exact Hdone.
Qed.

(** With too little fuel the run is still in the loop. *)
Lemma poll_running (ops : nat → Operation) (n : nat) :
  ∀ fuel k t,
    fuel < n →
    (∀ j, j < n → is_done (ops (k + j)) = false) →
    (∀ j, j < n →
       getVideosOperation env (k + j) (ops (k + j)) = Ok (ops (k + S j))) →
    fst (poll env fuel k (ops k) t) = Running.
Proof.
  induction n as [|n IH]; intros fuel k t Hfuel Hnot Hnext; [lia|].
  pose proof (Hnot 0 ltac:(lia)) as H0.
  pose proof (Hnext 0 ltac:(lia)) as H1.
  rewrite Nat.add_0_r in H0, H1.
  destruct fuel as [|fuel]; simpl; unfold bind at 1, emit at 1; simpl;
    rewrite H0; [done|].
  unfold bind at 1, emit at 1. simpl.
  unfold bind at 1, emit at 1. simpl.
  unfold bind at 1. rewrite H1. simpl.
  replace (k + 1) with (S k) by lia.
  apply IH; [lia | |].
  - intros j Hj. replace (S k + j) with (k + S j) by lia. apply Hnot. lia.
  - intros j Hj. replace (S k + j) with (k + S j) by lia.
    replace (S k + S j) with (k + S (S j)) by lia. apply Hnext. lia.
Qed.

End Poller.

(** ** generateVideo *)

Section GenerateVideo.

Import GeminiService.

Variable env : Provider.

(** C3. A request in mode EXTEND_VIDEO without a source video makes
    [generateVideo] throw the validation error with the trace as it was:
    nothing was submitted, polled or fetched. *)
Theorem extend_video_without_source_fails_before_network
    (fuel : nat) (params : GenerateVideoParams) (t : list Event) :
  mode params = EXTEND_VIDEO →
  inputVideoObject params = None →
  generateVideo env fuel params t = (Threw (ErrorObject missing_input_video), t)
  ∧ filter (λ e, is_network e = true) (snd (generateVideo env fuel params [])) = [].
Proof.
  intros Hmode Hvideo.
  assert (Hrun : ∀ t', generateVideo env fuel params t' =
                       (Threw (ErrorObject missing_input_video), t')).
  { intros t'. unfold generateVideo.
    rewrite (buildPayload_extend params Hmode), Hvideo. reflexivity. }
  split; [apply Hrun|]. by rewrite Hrun.
Qed.

(** C6. In mode FRAMES_TO_VIDEO a request is always built; with the
    looping flag set, a start frame and no end frame, its [lastFrame] is
    the start frame, that is the base64 text and the MIME type of the
    start frame, the same image as its [image] field; with the flag
    unset, [lastFrame] is the base64 text and the MIME type of the end
    frame when there is one and is absent otherwise. The built request
    is the one submitted. *)
Theorem frames_to_video_end_frame (params : GenerateVideoParams) :
  mode params = FRAMES_TO_VIDEO →
  ∃ payload,
    buildPayload params = Ok payload ∧
    (∀ fuel, ∃ tr,
       snd (generateVideo env fuel params []) = GenerateVideos payload :: tr) ∧
    (∀ first,
       isLooping params = true →
       startFrame params = Some first →
       endFrame params = None →
       lastFrame (pl_config payload) =
         Some {| imageBytes := base64 first;
                 mimeType := file_type (file first) |} ∧
       pl_image payload =
         Some {| imageBytes := base64 first;
                 mimeType := file_type (file first) |}) ∧
    (isLooping params = false →
     lastFrame (pl_config payload) =
       match endFrame params with
       | Some last =>
           Some {| imageBytes := base64 last;
                   mimeType := file_type (file last) |}
       | None => None
       end).
Proof.
  intros Hmode.
  destruct (buildPayload_frames params Hmode) as (payload & Hbuilt & Himg & Hlast).
  exists payload. split; [done|]. split.
  - intros fuel. by apply generateVideo_submits.
  - split.
    + intros first Hloop Hstart _. rewrite Hlast, Himg, Hloop, Hstart. done.
    + intros Hloop. rewrite Hlast, Hloop. by destruct (endFrame params).
Qed.

(** C7. A built request, which is the one submitted, has no aspect ratio
    when the mode is EXTEND_VIDEO, and has the supplied aspect ratio in
    each of the three other modes. *)
Theorem aspect_ratio_by_mode (params : GenerateVideoParams) (payload : Payload) :
  buildPayload params = Ok payload →
  (mode params = EXTEND_VIDEO → cfg_aspectRatio (pl_config payload) = None) ∧
  (∀ a,
     mode params = TEXT_TO_VIDEO ∨ mode params = FRAMES_TO_VIDEO
       ∨ mode params = REFERENCES_TO_VIDEO →
     aspectRatio params = Some a →
     cfg_aspectRatio (pl_config payload) = Some a) ∧
  (∀ fuel, ∃ tr,
     snd (generateVideo env fuel params []) = GenerateVideos payload :: tr).
Proof.
  intros Hbuilt.
  pose proof (buildPayload_aspectRatio params payload Hbuilt) as Hratio.
  split; [|split].
  - intros Hmode. rewrite Hratio. by case_decide.
  - intros a Hmode Ha. rewrite Hratio, <- Ha.
    case_decide; [|done]. destruct Hmode as [|[|]]; congruence.
  - intros fuel. by apply generateVideo_submits.
Qed.

(** What is left of [generateVideo] once the loop has been left. *)
Lemma generateVideo_after_poll fuel params payload op0 operation t t1 :
  buildPayload params = Ok payload →
  generateVideos env payload = Ok op0 →
  poll env fuel 0 op0 (t ++ [GenerateVideos payload]) = (Returned operation, t1) →
  generateVideo env fuel params t = retrieve env operation t1.
Proof.
  intros Hbuilt Hsubmit Hpoll. unfold generateVideo.
  rewrite Hbuilt. cbn [lift].
  unfold bind at 1, ret at 1. unfold bind at 1, emit at 1.
  unfold bind at 1. rewrite Hsubmit. cbn [lift]. unfold ret at 1.
  unfold bind at 1. by rewrite Hpoll.
Qed.

(** C4. When the submitted handle and the answer of the first poll are
    not done and the answer of the second poll is, [generateVideo] tests
    the completion flag exactly three times, waits 10 seconds before each
    of its two polls, polls no further, and, the asset of the first
    generated video being fetched with a 2xx status and its body read,
    returns that asset. *)
Theorem poll_stops_at_third_check
    (fuel : nat) (params : GenerateVideoParams) (payload : Payload)
    (op0 op1 op2 : Operation) (resp : GenerateVideosResponse)
    (firstVideo : GeneratedVideo) (others : list GeneratedVideo)
    (videoObject : Video) (u url : string) (res : Response)
    (videoBlob : Blob) :
  buildPayload params = Ok payload →
  generateVideos env payload = Ok op0 →
  is_done op0 = false →
  getVideosOperation env 0 op0 = Ok op1 →
  is_done op1 = false →
  getVideosOperation env 1 op1 = Ok op2 →
  is_done op2 = true →
  response op2 = Some resp →
  generatedVideos resp = Some (firstVideo :: others) →
  video firstVideo = Some videoObject →
  uri videoObject = Some u →
  truthy u = true →
  decodeURIComponent env u = Ok url →
  fetch env (url +:+ "&key=" +:+ API_KEY env) = Ok res →
  ok res = true →
  body res = Ok videoBlob →
  2 ≤ fuel →
  let run := generateVideo env fuel params [] in
  run =
    (Returned {| objectUrl := createObjectURL env videoBlob;
                 blob := videoBlob;
                 res_uri := url;
                 res_video := videoObject |},
     [GenerateVideos payload;
      CheckDone op0; SetTimeout 10000%N; GetVideosOperation op0;
      CheckDone op1; SetTimeout 10000%N; GetVideosOperation op1;
      CheckDone op2;
      Fetch (url +:+ "&key=" +:+ API_KEY env);
      CreateObjectURL videoBlob])
  ∧ length (filter (λ e, is_check e = true) (snd run)) = 3
  ∧ length (filter (λ e, is_poll e = true) (snd run)) = 2.
Proof.
  intros Hbuilt Hsubmit Hd0 Hp0 Hd1 Hp1 Hd2 Hresp Hvideos Hvideo Huri Htruthy
    Hdecode Hfetch Hok Hbody Hfuel run.
  set (ops := λ k : nat, match k with 0 => op0 | 1 => op1 | _ => op2 end).
  assert (Hpoll : poll env fuel 0 op0 ([] ++ [GenerateVideos payload]) =
    (Returned op2,
     [GenerateVideos payload;
      CheckDone op0; SetTimeout 10000%N; GetVideosOperation op0;
      CheckDone op1; SetTimeout 10000%N; GetVideosOperation op1;
      CheckDone op2])).
  { apply (poll_completes env ops 2 fuel 0 [GenerateVideos payload] Hfuel).
    - intros [|[|j]] Hj; simpl; [done | done | lia].
    - intros [|[|j]] Hj; simpl; [done | done | lia].
    - done. }
  assert (Hrun : run =
    (Returned {| objectUrl := createObjectURL env videoBlob;
                 blob := videoBlob;
                 res_uri := url;
                 res_video := videoObject |},
     [GenerateVideos payload;
      CheckDone op0; SetTimeout 10000%N; GetVideosOperation op0;
      CheckDone op1; SetTimeout 10000%N; GetVideosOperation op1;
      CheckDone op2;
      Fetch (url +:+ "&key=" +:+ API_KEY env);
      CreateObjectURL videoBlob])).
  { unfold run.
    rewrite (generateVideo_after_poll _ _ _ _ _ _ _ Hbuilt Hsubmit Hpoll).
    unfold retrieve. rewrite Hresp, Hvideos, Hvideo, Huri, Htruthy.
    unfold bind, emit, ret, throw. rewrite Hdecode. simpl.
    rewrite Hfetch. simpl. rewrite Hok, Hbody. reflexivity. }
  rewrite Hrun. by repeat split.
Qed.

(** C5. Once the loop is left with [operation], [generateVideo] returns
    only if the result list is non-empty, its first element has a
    non-empty URI and the fetch of that URI answered with a 2xx status;
    a missing response, a missing or empty list and a missing URI each
    throw their own message; a status outside 200..299 throws a message
    made of the status code and the reason text. *)
Theorem retrieval_outcomes
    (fuel : nat) (params : GenerateVideoParams) (payload : Payload)
    (op0 operation : Operation) (t t1 : list Event) :
  buildPayload params = Ok payload →
  generateVideos env payload = Ok op0 →
  poll env fuel 0 op0 (t ++ [GenerateVideos payload]) = (Returned operation, t1) →
  let run := generateVideo env fuel params t in
  (∀ result, fst run = Returned result →
     ∃ resp firstVideo others u url res,
       response operation = Some resp ∧
       generatedVideos resp = Some (firstVideo :: others) ∧
       video firstVideo = Some (res_video result) ∧
       uri (res_video result) = Some u ∧ u ≠ "" ∧
       decodeURIComponent env u = Ok url ∧
       fetch env (url +:+ "&key=" +:+ API_KEY env) = Ok res ∧
       200 ≤ status res ≤ 299 ∧
       body res = Ok (blob result)) ∧
  (response operation = None →
     run = (Threw (ErrorObject "No videos generated."), t1)) ∧
  (∀ resp,
     response operation = Some resp →
     generatedVideos resp = None ∨ generatedVideos resp = Some [] →
     run = (Threw (ErrorObject "No videos were generated."), t1)) ∧
  (∀ resp firstVideo others,
     response operation = Some resp →
     generatedVideos resp = Some (firstVideo :: others) →
     video firstVideo ≫= uri = None ∨ video firstVideo ≫= uri = Some "" →
     run = (Threw (ErrorObject "Generated video is missing a URI."), t1)) ∧
  (∀ resp firstVideo others u url res,
     response operation = Some resp →
     generatedVideos resp = Some (firstVideo :: others) →
     video firstVideo ≫= uri = Some u → u ≠ "" →
     decodeURIComponent env u = Ok url →
     fetch env (url +:+ "&key=" +:+ API_KEY env) = Ok res →
     ¬ (200 ≤ status res ≤ 299) →
     run =
       (Threw (ErrorObject ("Failed to fetch video: " +:+ pretty (status res)
                            +:+ " " +:+ statusText res)),
        t1 ++ [Fetch (url +:+ "&key=" +:+ API_KEY env)])).
Proof.
  intros Hbuilt Hsubmit Hpoll run.
  assert (Hrun : run = retrieve env operation t1)
    by (by apply generateVideo_after_poll with payload op0).
  rewrite Hrun. clear Hrun run. unfold retrieve.
  assert (Htruthy : ∀ u, truthy u = true ↔ u ≠ "").
  { intros u. unfold truthy. destruct (String.eqb_spec u ""); simpl; split;
      congruence. }
  assert (Hok : ∀ res, ok res = true ↔ 200 ≤ status res ≤ 299).
  { intros res. unfold ok. rewrite andb_true_iff, !Nat.leb_le. tauto. }
  split; [|split; [|split; [|split]]].
  - intros result.
    destruct (response operation) as [resp|]; [|done].
    destruct (generatedVideos resp) as [[|firstVideo others]|] eqn:Hvideos;
      [done| |done].
    destruct (video firstVideo) as [videoObject|] eqn:Hvideo; [|done].
    destruct (uri videoObject) as [u|] eqn:Huri; [|done].
    destruct (truthy u) eqn:Hu; [|done].
    unfold bind, emit, ret, throw.
    destruct (decodeURIComponent env u) as [url|] eqn:Hdecode; [|done].
    simpl.
    destruct (fetch env _) as [res|] eqn:Hfetch; [|done]. simpl.
    destruct (ok res) eqn:Hres; [|done].
    destruct (body res) as [videoBlob|] eqn:Hbody; [|done].
    simpl. intros [= <-]. simpl.
    exists resp, firstVideo, others, u, url, res.
    repeat split; try done; try (by apply Htruthy); by apply Hok.
  - by intros ->.
  - intros resp -> [-> | ->]; done.
  - intros resp firstVideo others -> -> Hnone.
    destruct (video firstVideo) as [videoObject|]; [|done]. simpl in Hnone.
    destruct (uri videoObject) as [u|]; [|done].
    destruct Hnone as [|[= ->]]; done.
  - intros resp firstVideo others u url res -> -> Huri Hu Hdecode Hfetch Hstatus.
    destruct (video firstVideo) as [videoObject|]; [|done]. simpl in Huri.
    rewrite Huri. apply Htruthy in Hu. rewrite Hu.
    unfold bind, emit, ret, throw. rewrite Hdecode. simpl.
    rewrite Hfetch. simpl.
    destruct (ok res) eqn:Hres; [by apply Hok in Hres|]. done.
Qed.

End GenerateVideo.

(** ** generateVideo on concrete requests *)

Section GenerateVideoExamples.

Import GeminiService Examples.

Lemma extend_video_without_source_witness :
  mode extend_params = EXTEND_VIDEO ∧
  inputVideoObject extend_params = None ∧
  generateVideo (provider 200 "OK") 5 extend_params [] =
    (Threw (ErrorObject "An input video object is required to extend a video."),
     []).
Proof.
  split; [reflexivity|]. split; [reflexivity|].
  apply (extend_video_without_source_fails_before_network
           (provider 200 "OK") 5 extend_params []); reflexivity.
Defined.

Lemma frames_to_video_end_frame_witness :
  mode looping_params = FRAMES_TO_VIDEO ∧
  ∃ payload,
    buildPayload looping_params = Ok payload ∧
    lastFrame (pl_config payload) =
      Some {| imageBytes := "iVBORw0KGgo="; mimeType := "image/png" |}.
Proof.
  split; [reflexivity|].
  destruct (frames_to_video_end_frame (provider 200 "OK") looping_params
              eq_refl) as (payload & Hbuilt & _ & Hloop & _).
  exists payload. split; [exact Hbuilt|].
  exact (proj1 (Hloop (png "first.png") eq_refl eq_refl eq_refl)).
Defined.

Lemma aspect_ratio_by_mode_witness :
  buildPayload text_params = Ok text_payload ∧
  cfg_aspectRatio (pl_config text_payload) = Some "16:9".
Proof.
  split; [reflexivity|].
  apply (aspect_ratio_by_mode (provider 200 "OK") text_params text_payload
           eq_refl); [left; reflexivity | reflexivity].
Defined.

Lemma poll_stops_at_third_check_witness :
  let run := generateVideo (provider 200 "OK") 2 text_params [] in
  fst run =
    Returned {| objectUrl := "blob:1";
                blob := mp4;
                res_uri := clip_url;
                res_video := clip |}
  ∧ length (filter (λ e, is_check e = true) (snd run)) = 3
  ∧ length (filter (λ e, is_poll e = true) (snd run)) = 2.
Proof.
  pose proof (poll_stops_at_third_check (provider 200 "OK") 2 text_params
    text_payload (handle 2 0) (handle 2 1) (handle 2 2) clip_response
    {| video := Some clip |} [] clip clip_url clip_url
    {| status := 200; statusText := "OK"; body := Ok mp4 |} mp4
    eq_refl eq_refl eq_refl eq_refl eq_refl eq_refl eq_refl eq_refl eq_refl
    eq_refl eq_refl eq_refl eq_refl eq_refl eq_refl eq_refl (le_n 2))
    as [Hrun Hcount].
  split; [|exact Hcount].
  exact (f_equal fst Hrun).
Defined.

Lemma retrieval_outcomes_witness :
  buildPayload text_params = Ok text_payload ∧
  poll (provider 404 "Not Found") 2 0 (handle 2 0) [GenerateVideos text_payload]
    = (Returned (handle 2 2), three_checks) ∧
  generateVideo (provider 404 "Not Found") 2 text_params [] =
    (Threw (ErrorObject "Failed to fetch video: 404 Not Found"),
     three_checks ++ [Fetch (clip_url +:+ "&key=k")]).
Proof.
  split; [reflexivity|]. split; [reflexivity|].
  refine (proj2 (proj2 (proj2 (proj2
    (retrieval_outcomes (provider 404 "Not Found") 2 text_params text_payload
       (handle 2 0) (handle 2 2) [] three_checks eq_refl eq_refl eq_refl))))
    clip_response {| video := Some clip |} [] clip_url clip_url
    {| status := 404; statusText := "Not Found"; body := Ok mp4 |}
    eq_refl eq_refl eq_refl _ eq_refl eq_refl _).
  - discriminate.
  - simpl. lia.
Defined.

End GenerateVideoExamples.

(** ** The gallery's selection *)

Section Gallery.

Import ImageGalleryDialog.

Variable maxSelectable : nat.

Lemma toggleSelection_selected index prev :
  index ∈ prev →
  toggleSelection maxSelectable index prev = filter (λ i, i ≠ index) prev.
Proof. intros Hin. unfold toggleSelection. by rewrite bool_decide_eq_true_2. Qed.

Lemma toggleSelection_below index prev :
  index ∉ prev → length prev < maxSelectable →
  toggleSelection maxSelectable index prev = prev ++ [index].
Proof.
  intros Hnotin Hlen. unfold toggleSelection.
  rewrite bool_decide_eq_false_2 by done. by rewrite bool_decide_eq_true_2.
Qed.

Lemma toggleSelection_full index prev :
  index ∉ prev → maxSelectable ≤ length prev →
  toggleSelection maxSelectable index prev = prev.
Proof.
  intros Hnotin Hlen. unfold toggleSelection.
  rewrite bool_decide_eq_false_2 by done.
  rewrite bool_decide_eq_false_2 by lia. done.
Qed.

(** Removing an element that is there makes the list shorter. *)
Lemma filter_out_shorter (index : nat) (prev : list nat) :
  index ∈ prev → length (filter (λ i, i ≠ index) prev) < length prev.
Proof.
  induction prev as [|x prev IH]; intros Hin; [by apply elem_of_nil in Hin|].
  destruct (decide (x = index)) as [->|Hne].
  - rewrite filter_cons_False by (intros ?; done). simpl.
    pose proof (length_filter (λ i, i ≠ index) prev). lia.
  - rewrite filter_cons_True by done. simpl.
    apply elem_of_cons in Hin as [->|Hin]; [done|].
    specialize (IH Hin). lia.
Qed.

(** Distinct tiles clicked one after the other are all selected while
    the maximum is not exceeded. *)
Lemma clicks_distinct indices : ∀ prev,
  NoDup (prev ++ indices) →
  length (prev ++ indices) ≤ maxSelectable →
  clicks maxSelectable indices prev = prev ++ indices.
Proof.
  unfold clicks.
  induction indices as [|i indices IH]; intros prev Hnodup Hlen; simpl.
  - by rewrite app_nil_r.
  - rewrite length_app in Hlen. simpl in Hlen.
    rewrite toggleSelection_below.
    + rewrite IH.
      * by rewrite <- app_assoc.
      * by rewrite <- app_assoc.
      * rewrite <- app_assoc, length_app. simpl. lia.
    + apply NoDup_app in Hnodup as (_ & Hdisj & _).
      intros Hin. apply (Hdisj i Hin). by left.
    + lia.
Qed.

(** C8. At the maximum, a click on a tile that is not selected changes
    nothing, and so does the (max+1)-th of a series of selections; a
    click on a selected tile always removes it; below the maximum a click
    on a tile that is not selected adds it, in particular after a
    deselection at the maximum. The dialog that awaits [generateImages]
    toggles by the same function. *)
Theorem gallery_selection_respects_maximum (prev : list nat) :
  (∀ index,
     length prev = maxSelectable → index ∉ prev →
     toggleSelection maxSelectable index prev = prev) ∧
  (∀ chosen extra,
     NoDup (chosen ++ [extra]) → length chosen = maxSelectable →
     clicks maxSelectable (chosen ++ [extra]) [] = chosen) ∧
  (∀ index,
     index ∈ prev →
     toggleSelection maxSelectable index prev = filter (λ i, i ≠ index) prev ∧
     (index ∉ toggleSelection maxSelectable index prev) ∧
     length (toggleSelection maxSelectable index prev) < length prev) ∧
  (∀ index,
     length prev < maxSelectable → index ∉ prev →
     toggleSelection maxSelectable index prev = prev ++ [index]) ∧
  (∀ old new,
     length prev = maxSelectable → old ∈ prev → new ∉ prev →
     toggleSelection maxSelectable new (toggleSelection maxSelectable old prev)
       = filter (λ i, i ≠ old) prev ++ [new]) ∧
  (∀ index,
     ImageGenerationDialog.toggleSelection maxSelectable index prev =
     toggleSelection maxSelectable index prev).
Proof.
  split; [|split; [|split; [|split; [|split]]]]; [| | | | |done].
  - intros index Hlen Hnotin. apply toggleSelection_full; [done | lia].
  - intros chosen extra Hnodup Hlen. unfold clicks.
    rewrite fold_left_app. simpl.
    assert (Hchosen : clicks maxSelectable chosen [] = [] ++ chosen).
    { apply clicks_distinct; simpl; [|lia].
      by apply NoDup_app in Hnodup as (? & _). }
    unfold clicks in Hchosen. rewrite Hchosen. simpl.
    apply toggleSelection_full; [|lia].
    apply NoDup_app in Hnodup as (_ & Hdisj & _).
    intros Hin. apply (Hdisj extra Hin). by left.
  - intros index Hin. rewrite toggleSelection_selected by done.
    split; [done|]. split.
    + rewrite list_elem_of_filter. tauto.
    + by apply filter_out_shorter.
  - intros index Hlen Hnotin. by apply toggleSelection_below.
  - intros old new Hlen Hold Hnew.
    rewrite (toggleSelection_selected old) by done.
    apply toggleSelection_below.
    + rewrite list_elem_of_filter. tauto.
    + pose proof (filter_out_shorter old prev Hold). lia.
Qed.

(** The dialog that awaits [generateImages] toggles in the same way. *)
Lemma generation_dialog_toggle_same index prev :
  ImageGenerationDialog.toggleSelection maxSelectable index prev =
  toggleSelection maxSelectable index prev.
Proof. reflexivity. Qed.

End Gallery.

Lemma gallery_selection_witness :
  ImageGalleryDialog.toggleSelection 2 7 [3; 5] = [3; 5] ∧
  ImageGalleryDialog.clicks 2 [3; 5; 7] [] = [3; 5] ∧
  ImageGalleryDialog.toggleSelection 2 3 [3; 5] = [5] ∧
  ImageGalleryDialog.toggleSelection 2 7
    (ImageGalleryDialog.toggleSelection 2 3 [3; 5]) = [5; 7].
Proof.
  pose proof (gallery_selection_respects_maximum 2 [3; 5])
    as (Hfull & Hseries & Hoff & _ & Hagain & _).
  split; [|split; [|split]].
  - apply Hfull; [reflexivity | compute_done].
  - apply (Hseries [3; 5] 7); [compute_done | reflexivity].
  - apply (Hoff 3). compute_done.
  - apply (Hagain 3 7); [reflexivity | compute_done | compute_done].
Defined.

(** ** The dialog with a status per slot *)

Section StatusDialog.

Import GeminiService ImageGenerationDialogStatus.

Variable env : ImageProvider.
Variable props : Props.

(** In range, an assignment to a slot is an update in place, and a second
    assignment to the same slot overrides the first. *)
Lemma array_set_in_range {A} i (v : A) (l : list (option A)) :
  i < length l → array_set i v l = <[i := Some v]> l.
Proof. intros Hlt. unfold array_set. by rewrite decide_True. Qed.

Lemma array_set_twice {A} i (v w : A) (l : list (option A)) :
  i < length l → array_set i w (array_set i v l) = <[i := Some w]> l.
Proof.
  intros Hlt. rewrite (array_set_in_range i v) by done.
  rewrite array_set_in_range by (by rewrite length_insert).
  apply list_insert_insert_eq.
Qed.

(** A completion of a slot in flight, field by field. *)
Lemma complete_in_flight i st :
  i ∈ unsettled st →
  i < length (generationResults st) →
  complete env props i st =
    {| prompt := prompt st;
       numberOfImages := numberOfImages st;
       generationStatus :=
         if bool_decide (filter (λ j, j ≠ i) (unsettled st) = [])
         then finished else generationStatus st;
       generationResults :=
         <[i := Some (outcome_result env props (batchPrompt st) i)]>
           (generationResults st);
       selectedIndices := selectedIndices st;
       batchPrompt := batchPrompt st;
       unsettled := filter (λ j, j ≠ i) (unsettled st) |}.
Proof.
  intros Hin Hlt.
  unfold complete, outcome_result, slotPromise, on_rejected.
  rewrite bool_decide_eq_true_2 by done.
  destruct (imageData env (batchPrompt st) i) as [imageFile|err];
    [destruct (onImagesGenerated props [imageFile]) as [[]|err']|];
    unfold setGenerationResults; simpl;
    rewrite ?array_set_twice, ?array_set_in_range by done;
    case_bool_decide; done.
Qed.

(** A promise settles once: a completion of a slot that is not in flight
    changes nothing. *)
Lemma complete_not_in_flight i st :
  i ∉ unsettled st → complete env props i st = st.
Proof. intros Hnotin. unfold complete. by rewrite bool_decide_eq_false_2. Qed.

Lemma length_batch_results p n settled :
  length (batch_results env props p n settled) = n.
Proof. apply length_slot_map. Qed.

Lemma batch_results_lookup p n settled j :
  j < n →
  batch_results env props p n settled !! j =
    Some (Some (if bool_decide (j ∈ settled)
                then outcome_result env props p j else pending_result)).
Proof.
  intros Hlt. unfold batch_results. rewrite slot_map_lookup by done.
  by case_bool_decide.
Qed.

Lemma batch_results_settle p n settled i :
  i < n →
  <[i := Some (outcome_result env props p i)]>
    (batch_results env props p n settled) =
  batch_results env props p n (settled ++ [i]).
Proof.
  intros Hlt. unfold batch_results.
  by rewrite <- (slot_map_settle n (λ i, Some (outcome_result env props p i))).
Qed.

Lemma batch_results_ignore p n settled i :
  (i < n → i ∈ settled) →
  batch_results env props p n (settled ++ [i]) =
  batch_results env props p n settled.
Proof. apply slot_map_ignore. Qed.

Lemma unsettled_settle n settled i :
  filter (λ j, j ≠ i) (filter (λ j, j ∉ settled) (seq 0 n)) =
  filter (λ j, j ∉ settled ++ [i]) (seq 0 n).
Proof.
  rewrite list_filter_filter. apply list_filter_iff. intros j.
  rewrite elem_of_app, list_elem_of_singleton. tauto.
Qed.

(** The state of a batch of [numberOfImages] requests once the
    completions of [settled] have run, in any order and whatever their
    outcomes. *)
Lemma batch_state st0 settled :
  truthy (trim (prompt st0)) = true →
  steps env props (completions settled) (handleGenerate st0) =
    {| prompt := prompt st0;
       numberOfImages := numberOfImages st0;
       generationStatus :=
         if bool_decide (filter (λ j, j ∉ settled)
                                (seq 0 (numberOfImages st0)) = [])
         then finished else generating;
       generationResults :=
         batch_results env props (prompt st0) (numberOfImages st0) settled;
       selectedIndices := [];
       batchPrompt := prompt st0;
       unsettled := filter (λ j, j ∉ settled) (seq 0 (numberOfImages st0)) |}.
Proof.
  intros Hprompt. unfold steps, completions.
  induction settled as [|i settled IH] using rev_ind.
  - assert (Hall : filter (λ j, j ∉ []) (seq 0 (numberOfImages st0)) =
                   seq 0 (numberOfImages st0)).
    { apply filter_all. intros j _. apply not_elem_of_nil. }
    assert (Hpending : batch_results env props (prompt st0)
                         (numberOfImages st0) [] =
                       replicate (numberOfImages st0) (Some pending_result)).
    { apply slot_map_nil. }
    rewrite Hall, Hpending. clear Hall Hpending.
    unfold handleGenerate. rewrite Hprompt.
    destruct (numberOfImages st0) as [|n] eqn:Hn; simpl;
      unfold setGenerationStatus, set_batch, setGenerationResults,
        setSelectedIndices; simpl; by rewrite Hn.
  - rewrite map_app, fold_left_app, IH. simpl.
    set (n := numberOfImages st0) in *.
    destruct (decide (i ∈ filter (λ j, j ∉ settled) (seq 0 n))) as [Hin|Hnotin].
    + assert (Hlt : i < n).
      { apply list_elem_of_filter in Hin as [_ Hin].
        apply list_elem_of_In, in_seq in Hin. lia. }
      rewrite complete_in_flight; simpl;
        [| done | by rewrite length_batch_results].
      rewrite batch_results_settle, unsettled_settle by done.
      rewrite (bool_decide_eq_false_2
                 (filter (λ j, j ∉ settled) (seq 0 n) = [])); [done|].
      intros Hnil. rewrite Hnil in Hin. by apply elem_of_nil in Hin.
    + rewrite complete_not_in_flight by done.
      assert (Hi : i < n → i ∈ settled).
      { intros Hlt. destruct (decide (i ∈ settled)) as [|Hnew]; [done|].
        exfalso. apply Hnotin. apply list_elem_of_filter. split; [done|].
        apply list_elem_of_In, in_seq. lia. }
      rewrite batch_results_ignore by done.
      assert (Hsame : filter (λ j, j ∉ settled ++ [i]) (seq 0 n) =
                      filter (λ j, j ∉ settled) (seq 0 n)).
      { apply filter_ext_in. intros j Hj.
        apply list_elem_of_In, in_seq in Hj.
        rewrite elem_of_app, list_elem_of_singleton.
        split; [tauto|]. intros Hns [Hj'| ->]; [done|]. apply Hns, Hi. lia. }
      by rewrite Hsame.
Qed.

(** A click on Generate while no batch is in flight, followed by
    completions. *)
Lemma generate_then_complete st0 settled :
  generationStatus st0 ≠ generating →
  steps env props (ClickGenerate :: completions settled) st0 =
  steps env props (completions settled) (handleGenerate st0).
Proof.
  intros Hidle. unfold steps. simpl. by rewrite bool_decide_eq_false_2.
Qed.

(** C2. With four requests of which one fails and three succeed, in
    whatever order they settle, the dialog ends finished with a status
    array of length 4 whose failing slot has the status error, no image
    and the message of the failure, and whose other slots have the
    status success, the image of their request and no message; and a
    slot that succeeds shows its image from its own completion on,
    whatever has become of the failing one. *)
Theorem fan_out_of_four_isolates_failure
    (st0 : State) (failing : nat) (err : Thrown) (assets : nat → ImageFile)
    (schedule : list nat) :
  generationStatus st0 ≠ generating →
  truthy (trim (prompt st0)) = true →
  numberOfImages st0 = 4 →
  failing < 4 →
  slotPromise env props (prompt st0) failing = Throw err →
  (∀ i, i < 4 → i ≠ failing →
     slotPromise env props (prompt st0) i = Ok (assets i)) →
  schedule ≡ₚ [0; 1; 2; 3] →
  let final := steps env props (ClickGenerate :: completions schedule) st0 in
  generationStatus final = finished ∧
  generationResults final =
    map (λ i, Some (if decide (i = failing)
                    then {| status := error;
                            data := None;
                            error_message :=
                              Some match err with
                                   | ErrorObject message => message
                                   | NonError _ => "An unknown error occurred."
                                   end |}
                    else {| status := success;
                            data := Some (assets i);
                            error_message := None |}))
        [0; 1; 2; 3] ∧
  length (generationResults final) = 4 ∧
  (∀ before after i,
     schedule = before ++ after → i ∈ before → i ≠ failing →
     generationResults
       (steps env props (ClickGenerate :: completions before) st0) !! i =
     Some (Some {| status := success;
                   data := Some (assets i);
                   error_message := None |})).
Proof.
  intros Hidle Hprompt Hn Hfailing Hfail Hsucc Hperm final.
  assert (Hin : ∀ i, i ∈ schedule ↔ i < 4).
  { intros i. rewrite Hperm. change [0; 1; 2; 3] with (seq 0 4).
    rewrite list_elem_of_In, in_seq. lia. }
  assert (Hfinal : final =
    {| prompt := prompt st0;
       numberOfImages := 4;
       generationStatus := finished;
       generationResults := batch_results env props (prompt st0) 4 schedule;
       selectedIndices := [];
       batchPrompt := prompt st0;
       unsettled := [] |}).
  { unfold final. rewrite generate_then_complete, batch_state, Hn by done.
    assert (Hnone : filter (λ j, j ∉ schedule) (seq 0 4) = []).
    { apply filter_none. intros j Hj Hnot. apply Hnot, Hin.
      apply list_elem_of_In, in_seq in Hj. lia. }
    by rewrite Hnone. }
  assert (Hslots : generationResults final =
    map (λ i, Some (if decide (i = failing)
                    then error_result (message_of err)
                    else success_result (assets i)))
        [0; 1; 2; 3]).
  { rewrite Hfinal. cbn [generationResults]. unfold batch_results.
    rewrite slot_map_full by (intros i Hi; by apply Hin).
    change [0; 1; 2; 3] with (seq 0 4). apply map_ext_in. intros i Hi.
    apply in_seq in Hi.
    unfold outcome_result. case_decide as Hi'.
    - subst i. by rewrite Hfail.
    - by rewrite Hsucc by (done || lia). }
  split; [by rewrite Hfinal|]. split; [done|]. split; [by rewrite Hslots|].
  intros before after i -> Hbefore Hne.
  assert (Hlt : i < 4) by (apply Hin, elem_of_app; by left).
  rewrite generate_then_complete, batch_state by done. simpl.
  rewrite Hn, batch_results_lookup by done.
  rewrite bool_decide_eq_true_2 by done.
  unfold outcome_result. by rewrite Hsucc.
Qed.

(** C9, amended. A slot whose promise chain threw has the status error,
    no image, and a message: the generic string when what was thrown is
    not an [Error], and the message of the [Error] otherwise, as it is,
    the empty message included. *)
Theorem failure_message_defaults_to_generic
    (st0 : State) (settled : list nat) (i : nat) (err : Thrown) :
  generationStatus st0 ≠ generating →
  truthy (trim (prompt st0)) = true →
  i < numberOfImages st0 →
  i ∈ settled →
  slotPromise env props (prompt st0) i = Throw err →
  let st := steps env props (ClickGenerate :: completions settled) st0 in
  ∃ message,
    generationResults st !! i =
      Some (Some {| status := error;
                    data := None;
                    error_message := Some message |}) ∧
    (carried_message err = None → message = "An unknown error occurred.") ∧
    (∀ m, carried_message err = Some m → message = m).
Proof.
  intros Hidle Hprompt Hlt Hin Hfail st. exists (message_of err).
  split; [|split].
  - unfold st. rewrite generate_then_complete, batch_state by done. simpl.
    rewrite batch_results_lookup by done.
    rewrite bool_decide_eq_true_2 by done.
    unfold outcome_result. by rewrite Hfail.
  - by destruct err.
  - intros m. destruct err; simpl; congruence.
Qed.

End StatusDialog.

Section StatusDialogExamples.

Import GeminiService ImageGenerationDialogStatus Examples.

Lemma fan_out_of_four_witness :
  let final :=
    steps (flaky (only 2 (ErrorObject "429 Too Many Requests"))) dialog_props
      (ClickGenerate :: completions [3; 2; 0; 1]) four_images in
  generationStatus final = finished ∧
  generationResults final =
    [Some {| status := success; data := Some (generated 0);
             error_message := None |};
     Some {| status := success; data := Some (generated 1);
             error_message := None |};
     Some {| status := error; data := None;
             error_message := Some "429 Too Many Requests" |};
     Some {| status := success; data := Some (generated 3);
             error_message := None |}].
Proof.
  pose proof (fan_out_of_four_isolates_failure
    (flaky (only 2 (ErrorObject "429 Too Many Requests"))) dialog_props
    four_images 2 (ErrorObject "429 Too Many Requests") generated [3; 2; 0; 1])
    as Hfan.
  simpl in Hfan.
  destruct Hfan as (Hstatus & Hresults & _).
  - discriminate.
  - reflexivity.
  - reflexivity.
  - lia.
  - reflexivity.
  - intros [|[|[|[|i]]]] Hlt Hne; first [reflexivity | done | lia].
  - compute_done.
  - split; [exact Hstatus | exact Hresults].
Defined.

(** C9 as worded does not hold: a request rejected with an [Error] built
    without a message ([new Error()], whose message is the empty string)
    leaves the empty message in its slot, not the generic string. *)
Lemma failure_message_of_error_without_message :
  let env := flaky (only 1 (ErrorObject "")) in
  let st :=
    steps env dialog_props (ClickGenerate :: completions [1; 0])
      (initial dialog_props) in
  slotPromise env dialog_props "a cat" 1 = Throw (ErrorObject "") ∧
  carries_no_message (ErrorObject "") ∧
  generationResults st !! 1 =
    Some (Some {| status := error; data := None;
                  error_message := Some "" |}) ∧
  ¬ generic_when_no_message env dialog_props (initial dialog_props)
      [1; 0] 1 (ErrorObject "").
Proof.
  repeat split; try reflexivity; [by right|].
  intros Hgeneric. specialize (Hgeneric (or_intror eq_refl)).
  vm_compute in Hgeneric. discriminate.
Qed.

Lemma failure_message_witness :
  generationResults
    (steps (flaky (only 1 (NonError "net::ERR_FAILED"))) dialog_props
       (ClickGenerate :: completions [1; 0]) (initial dialog_props)) !! 1
  = Some (Some {| status := error; data := None;
                  error_message := Some "An unknown error occurred." |}).
Proof.
  destruct (failure_message_defaults_to_generic
    (flaky (only 1 (NonError "net::ERR_FAILED"))) dialog_props
    (initial dialog_props) [1; 0] 1 (NonError "net::ERR_FAILED"))
    as (message & Hslot & Hgeneric & _).
  - discriminate.
  - reflexivity.
  - simpl. lia.
  - compute_done.
  - reflexivity.
  - rewrite (Hgeneric eq_refl) in Hslot. exact Hslot.
Defined.

End StatusDialogExamples.

(** ** generateImages *)

Section FanOut.

Import GeminiService.

Variable env : ImageProvider.
Variable prompt : string.

Lemma settle_with_settled {A} (r : Result A) : is_settled (settle_with r) = true.
Proof. by destruct r. Qed.

(** The promises of the calls settle one by one, each with its own
    outcome, whatever has become of [Promise.all]. *)
Lemma settle_imagePromises i s :
  imagePromises (settle env prompt i s) =
    match imagePromises s !! i with
    | Some Pending => <[i := settle_with (imagePromise env prompt i)]> (imagePromises s)
    | _ => imagePromises s
    end.
Proof.
  unfold settle. by destruct (imagePromises s !! i) as [[| |]|].
Qed.

Lemma run_imagePromises n schedule :
  imagePromises (generateImages env prompt n schedule) =
    slot_map n schedule (λ i, settle_with (imagePromise env prompt i)) Pending.
Proof.
  unfold generateImages, run.
  induction schedule as [|i schedule IH] using rev_ind.
  - simpl. by rewrite slot_map_nil.
  - rewrite fold_left_app. simpl. rewrite settle_imagePromises, IH.
    destruct (decide (i < n)) as [Hlt|Hge].
    + rewrite slot_map_lookup by done. case_bool_decide as Hin.
      * rewrite slot_map_ignore by done.
        by destruct (imagePromise env prompt i).
      * by rewrite (slot_map_settle n (λ i, settle_with (imagePromise env prompt i))).
    + rewrite lookup_ge_None_2 by (rewrite length_slot_map; lia).
      by rewrite slot_map_ignore by lia.
Qed.

(** Counting the settled promises. *)
Lemma settled_count_slot_map n settled :
  NoDup settled → (∀ i, i ∈ settled → i < n) →
  settled_count (slot_map n settled (λ i, settle_with (imagePromise env prompt i)) Pending) = length settled.
Proof.
  intros Hnodup Hbound. unfold settled_count, slot_map.
  assert (Hcount : ∀ l : list nat,
    length (filter (λ p, is_settled p = true)
              (map (λ i, if bool_decide (i ∈ settled) then settle_with (imagePromise env prompt i)
                        else Pending) l))
    = length (filter (λ i, i ∈ settled) l)).
  { induction l as [|a l IHl]; [done|]. simpl map.
    rewrite !filter_cons. case_bool_decide as Ha.
    - rewrite decide_True by apply settle_with_settled.
      rewrite decide_True by done. simpl. by rewrite IHl.
    - rewrite decide_False by done. rewrite decide_False by done. done. }
  rewrite Hcount. apply Permutation_length, NoDup_Permutation.
  - apply NoDup_filter, NoDup_seq.
  - done.
  - intros i. rewrite list_elem_of_filter.
    split; [tauto|]. intros Hi. split; [done|].
    apply list_elem_of_In, in_seq. specialize (Hbound i Hi). lia.
Qed.

Lemma NoDup_bounded_length n (l : list nat) :
  NoDup l → (∀ i, i ∈ l → i < n) → length l ≤ n.
Proof.
  intros Hnodup Hbound.
  assert (Hseq : length l ≤ length (seq 0 n)).
  { apply submseteq_length, NoDup_submseteq; [done|].
    intros i Hi. apply list_elem_of_In, in_seq. specialize (Hbound i Hi). lia. }
  by rewrite length_seq in Hseq.
Qed.

(** While every call that has settled succeeded, [Promise.all] collects
    the values and is fulfilled by the last of the [n] calls. *)
Lemma run_all_succeed n settled :
  NoDup settled → (∀ i, i ∈ settled → i < n) →
  (∀ i, i ∈ settled → ∃ f, imagePromise env prompt i = Ok f) →
  generateImages env prompt n settled =
    {| imagePromises := slot_map n settled (λ i, settle_with (imagePromise env prompt i)) Pending;
       values := slot_map n settled (asset_of env prompt) None;
       remaining := n - length settled;
       awaited :=
         if length settled =? n
         then Fulfilled (omap id (slot_map n settled (asset_of env prompt) None))
         else Pending;
       resumed_after := if length settled =? n then Some n else None |}.
Proof.
  unfold generateImages, run.
  induction settled as [|i settled IH] using rev_ind;
    intros Hnodup Hbound Hsucc.
  - simpl. unfold start. rewrite !slot_map_nil, Nat.sub_0_r.
    destruct n as [|m]; [done|]. simpl. done.
  - apply NoDup_app in Hnodup as (Hnodup & Hfresh & _).
    assert (Hnew : i ∉ settled).
    { intros Hin. apply (Hfresh i Hin). by left. }
    assert (Hlt : i < n) by (apply Hbound, elem_of_app; right; by left).
    destruct (Hsucc i) as [f Hf]; [apply elem_of_app; right; by left|].
    assert (Hlen : S (length settled) ≤ n).
    { rewrite <- (NoDup_bounded_length n (settled ++ [i])).
      - rewrite length_app. simpl. lia.
      - apply NoDup_app. split; [done|]. split; [|apply NoDup_singleton].
        intros j Hj Hji. apply list_elem_of_singleton in Hji. by subst.
      - done. }
    rewrite fold_left_app. simpl. rewrite IH; clear IH.
    + unfold settle. cbn [imagePromises values remaining awaited resumed_after].
      rewrite slot_map_lookup by done.
      rewrite bool_decide_eq_false_2 by done.
      rewrite Hf. cbn [settle_with].
      rewrite (proj2 (Nat.eqb_neq (length settled) n)) by lia.
      assert (Hpromise : <[i := Fulfilled f]>
                (slot_map n settled (λ i, settle_with (imagePromise env prompt i)) Pending) =
              slot_map n (settled ++ [i]) (λ i, settle_with (imagePromise env prompt i)) Pending).
      { rewrite <- (slot_map_settle n (λ i, settle_with (imagePromise env prompt i))) by done.
        by rewrite Hf. }
      assert (Hvalue : <[i := Some f]>
                (slot_map n settled (asset_of env prompt) None) =
              slot_map n (settled ++ [i]) (asset_of env prompt) None).
      { rewrite <- (slot_map_settle n (asset_of env prompt)) by done.
        unfold asset_of at 2. by rewrite Hf. }
      rewrite Hpromise, Hvalue, length_app. simpl.
      replace (n - length settled - 1) with (n - (length settled + 1)) by lia.
      destruct (decide (length settled + 1 = n)) as [Heq|Hne].
      * rewrite (proj2 (Nat.eqb_eq (length settled + 1) n)) by done.
        rewrite (proj2 (Nat.eqb_eq (n - (length settled + 1)) 0)) by lia.
        simpl. rewrite settled_count_slot_map.
        -- rewrite length_app. simpl. by rewrite Heq.
        -- apply NoDup_app. split; [done|]. split; [|apply NoDup_singleton].
           intros j Hj Hji. apply list_elem_of_singleton in Hji. by subst.
        -- done.
      * rewrite (proj2 (Nat.eqb_neq (length settled + 1) n)) by done.
        rewrite (proj2 (Nat.eqb_neq (n - (length settled + 1)) 0)) by lia.
        done.
    + done.
    + intros j Hj. apply Hbound, elem_of_app. by left.
    + intros j Hj. apply Hsucc, elem_of_app. by left.
Qed.

(** Once [Promise.all] is settled and the [await] has resumed, later
    completions change neither. *)
Lemma settle_after_resumed i s k :
  is_settled (awaited s) = true → resumed_after s = Some k →
  awaited (settle env prompt i s) = awaited s ∧
  resumed_after (settle env prompt i s) = Some k.
Proof.
  intros Hsettled Hresumed. unfold settle.
  destruct (imagePromises s !! i) as [[| |]|]; try done.
  cbn [awaited resumed_after]. rewrite Hresumed.
  by destruct (awaited s).
Qed.

Lemma run_after_resumed schedule : ∀ s k,
  is_settled (awaited s) = true → resumed_after s = Some k →
  awaited (run env prompt schedule s) = awaited s ∧
  resumed_after (run env prompt schedule s) = Some k.
Proof.
  unfold run. induction schedule as [|i schedule IH]; intros s k Hs Hk; [done|].
  simpl. destruct (settle_after_resumed i s k Hs Hk) as [Ha Hr].
  destruct (IH (settle env prompt i s) k) as [Ha' Hr'];
    [by rewrite Ha | done |].
  by rewrite Ha', Hr', Ha.
Qed.

Lemma omap_id_map {A} (g : nat → option A) (l : list nat) :
  omap id (map g l) = omap g l.
Proof.
  induction l as [|a l IH]; [done|]. csimpl. by rewrite <- IH.
Qed.

Lemma length_omap_all {A} (g : nat → option A) (l : list nat) :
  (∀ i, i ∈ l → is_Some (g i)) → length (omap g l) = length l.
Proof.
  induction l as [|a l IH]; intros Hall; [done|]. csimpl.
  destruct (Hall a) as [x Hx]; [by left|]. rewrite Hx. csimpl.
  rewrite IH; [done|]. intros i Hi. apply Hall. by right.
Qed.

(** What [generateImages] yields, for every order in which the calls
    settle. *)
Lemma generateImages_outcomes (n : nat) (schedule : list nat) :
  schedule ≡ₚ seq 0 n →
  let s := generateImages env prompt n schedule in
  imagePromises s =
    map (λ i, settle_with (imagePromise env prompt i)) (seq 0 n) ∧
  ((∀ i, i < n → ∃ f, imagePromise env prompt i = Ok f) →
     result_of s = Returned (successful_assets env prompt n) ∧
     length (successful_assets env prompt n) = n ∧
     resumed_after s = Some n) ∧
  (∀ before i after err,
     schedule = before ++ i :: after →
     (∀ j, j ∈ before → ∃ f, imagePromise env prompt j = Ok f) →
     imagePromise env prompt i = Throw err →
     result_of s = Threw err ∧ resumed_after s = Some (S (length before))).
Proof.
  intros Hperm s.
  assert (Hin : ∀ i, i ∈ schedule ↔ i < n).
  { intros i. rewrite Hperm, list_elem_of_In, in_seq. lia. }
  assert (Hnodup : NoDup schedule) by (rewrite Hperm; apply NoDup_seq).
  assert (Hlen : length schedule = n) by (by rewrite Hperm, length_seq).
  split; [|split].
  - unfold s. rewrite run_imagePromises.
    apply slot_map_full. intros i. apply Hin.
  - intros Hall. unfold s, result_of.
    rewrite run_all_succeed;
      [| done | intros i; apply Hin | intros i Hi; by apply Hall, Hin].
    cbn [awaited resumed_after]. rewrite Hlen, Nat.eqb_refl.
    rewrite slot_map_full by (intros i; apply Hin).
    rewrite omap_id_map. split; [done|]. split; [|done].
    unfold successful_assets. rewrite length_omap_all, length_seq; [done|].
    intros i Hi. apply list_elem_of_In, in_seq in Hi.
    destruct (Hall i) as [f Hf]; [lia|]. unfold asset_of. rewrite Hf. by eexists.
  - intros before i after err -> Hbefore Hfail.
    apply NoDup_app in Hnodup as (Hnodup & Hfresh & _).
    assert (Hnew : i ∉ before).
    { intros Hi. apply (Hfresh i Hi). by left. }
    assert (Hlt : i < n) by (apply Hin, elem_of_app; right; by left).
    assert (Hbound : ∀ j, j ∈ before → j < n).
    { intros j Hj. apply Hin, elem_of_app. by left. }
    rewrite length_app in Hlen. simpl in Hlen.
    unfold s, generateImages, run. rewrite fold_left_app. simpl.
    fold (run env prompt before (start n)).
    fold (generateImages env prompt n before).
    fold (run env prompt after
            (settle env prompt i (generateImages env prompt n before))).
    rewrite run_all_succeed by done.
    rewrite (proj2 (Nat.eqb_neq (length before) n)) by lia.
    assert (Hstep :
      awaited (settle env prompt i
        {| imagePromises :=
             slot_map n before (λ i, settle_with (imagePromise env prompt i))
                      Pending;
           values := slot_map n before (asset_of env prompt) None;
           remaining := n - length before;
           awaited := Pending;
           resumed_after := None |}) = Rejected err ∧
      resumed_after (settle env prompt i
        {| imagePromises :=
             slot_map n before (λ i, settle_with (imagePromise env prompt i))
                      Pending;
           values := slot_map n before (asset_of env prompt) None;
           remaining := n - length before;
           awaited := Pending;
           resumed_after := None |}) = Some (S (length before))).
    { unfold settle. cbn [imagePromises values remaining awaited resumed_after].
      rewrite slot_map_lookup by done.
      rewrite bool_decide_eq_false_2 by done.
      rewrite Hfail. cbn [settle_with awaited resumed_after is_settled].
      split; [done|].
      assert (Hpromise : <[i := Rejected err]>
                (slot_map n before
                   (λ i, settle_with (imagePromise env prompt i)) Pending) =
              slot_map n (before ++ [i])
                (λ i, settle_with (imagePromise env prompt i)) Pending).
      { rewrite <- (slot_map_settle n
                      (λ i, settle_with (imagePromise env prompt i))) by done.
        by rewrite Hfail. }
      rewrite Hpromise, settled_count_slot_map.
      - rewrite length_app. simpl. f_equal. lia.
      - apply NoDup_app. split; [done|]. split; [|apply NoDup_singleton].
        intros j Hj Hji. apply list_elem_of_singleton in Hji. by subst.
      - intros j Hj. apply elem_of_app in Hj as [Hj|Hj]; [by apply Hbound|].
        apply list_elem_of_singleton in Hj. by subst. }
    destruct Hstep as [Hawaited Hresumed].
    destruct (run_after_resumed after _ _
                ltac:(by rewrite Hawaited) Hresumed) as [Ha Hr].
    unfold result_of. by rewrite Ha, Hr, Hawaited.
Qed.

(** C1, as the code has it. Every call settles with its own outcome,
    whatever the others do. When all the calls succeed, [generateImages]
    returns once the last of them has settled, with all the assets in
    slot order. When a call fails, [generateImages] throws the error of
    the first call to fail, as soon as that call has settled. *)
Theorem generateImages_all_or_first_failure (n : nat) (schedule : list nat) :
  schedule ≡ₚ seq 0 n →
  let s := generateImages env prompt n schedule in
  imagePromises s =
    map (λ i, settle_with (imagePromise env prompt i)) (seq 0 n) ∧
  ((∀ i, i < n → ∃ f, imagePromise env prompt i = Ok f) →
     result_of s = Returned (successful_assets env prompt n) ∧
     length (successful_assets env prompt n) = n ∧
     resumed_after s = Some n) ∧
  (∀ before i after err,
     schedule = before ++ i :: after →
     (∀ j, j ∈ before → ∃ f, imagePromise env prompt j = Ok f) →
     imagePromise env prompt i = Throw err →
     result_of s = Threw err ∧ resumed_after s = Some (S (length before))).
Proof. exact (generateImages_outcomes n schedule). Qed.

(** The dialog that awaits [generateImages] shows the error and no image
    when a call fails, and all the images when none does. *)
Lemma handleGenerate_all_or_nothing (st : ImageGenerationDialog.State)
    (schedule : list nat) :
  prompt = ImageGenerationDialog.prompt st →
  truthy (trim prompt) = true →
  schedule ≡ₚ seq 0 (ImageGenerationDialog.numberOfImages st) →
  let st' := ImageGenerationDialog.handleGenerate env schedule st in
  ((∀ i, i < ImageGenerationDialog.numberOfImages st →
         ∃ f, imagePromise env prompt i = Ok f) →
   ImageGenerationDialog.generatedImages st' =
     successful_assets env prompt (ImageGenerationDialog.numberOfImages st) ∧
   ImageGenerationDialog.error st' = None) ∧
  (∀ before i after err,
     schedule = before ++ i :: after →
     (∀ j, j ∈ before → ∃ f, imagePromise env prompt j = Ok f) →
     imagePromise env prompt i = Throw err →
     ImageGenerationDialog.generatedImages st' = [] ∧
     ImageGenerationDialog.error st' =
       Some ("Failed to generate images: " +:+
             ImageGenerationDialog.message_of err)).
Proof.
  intros Hp Hprompt Hperm st'.
  destruct (generateImages_outcomes _ _ Hperm) as (_ & Hall & Hfail).
  unfold st', ImageGenerationDialog.handleGenerate.
  rewrite <- Hp, Hprompt. simpl. split.
  - intros Hok. destruct (Hall Hok) as (-> & _ & _). done.
  - intros before i after err Hsched Hbefore Hi.
    destruct (Hfail before i after err Hsched Hbefore Hi) as (-> & _). done.
Qed.

End FanOut.

Section FanOutExamples.

Import GeminiService Examples.

(** C1 as worded does not hold: with two calls of which the first to
    settle fails, [generateImages] throws when one call has settled, the
    other one still pending, and the asset of the call that succeeds is
    not returned. *)
Lemma generateImages_rejects_at_first_failure :
  let env := flaky (only 0 (ErrorObject "503 Service Unavailable")) in
  [0; 1] ≡ₚ seq 0 2 ∧
  imagePromises (generateImages env "a cat" 2 [0]) =
    [Rejected (ErrorObject "503 Service Unavailable"); Pending] ∧
  result_of (generateImages env "a cat" 2 [0]) =
    Threw (ErrorObject "503 Service Unavailable") ∧
  resumed_after (generateImages env "a cat" 2 [0; 1]) = Some 1 ∧
  result_of (generateImages env "a cat" 2 [0; 1]) =
    Threw (ErrorObject "503 Service Unavailable") ∧
  successful_assets env "a cat" 2 = [generated 1] ∧
  ¬ returns_successes_after_settlement env "a cat" 2 [0; 1].
Proof.
  repeat split; try reflexivity.
  intros [Hresumed _]. vm_compute in Hresumed. discriminate.
Qed.

Lemma generateImages_witness :
  let env := flaky (only 0 (ErrorObject "503 Service Unavailable")) in
  result_of (generateImages env "a cat" 3 [2; 0; 1]) =
    Threw (ErrorObject "503 Service Unavailable") ∧
  resumed_after (generateImages env "a cat" 3 [2; 0; 1]) = Some 2.
Proof.
  pose proof (generateImages_all_or_first_failure
    (flaky (only 0 (ErrorObject "503 Service Unavailable"))) "a cat" 3
    [2; 0; 1]) as Hthm.
  destruct Hthm as (_ & _ & Hfail); [compute_done|].
  apply (Hfail [2] 0 [1] (ErrorObject "503 Service Unavailable"));
    [reflexivity | | reflexivity].
  intros j Hj. exists (generated 2).
  apply list_elem_of_singleton in Hj. subst j. reflexivity.
Defined.

End FanOutExamples.

(** ** Selection in the dialog with a status per slot *)

Section StatusSelection.

Import GeminiService ImageGenerationDialogStatus.

Variable env : ImageProvider.
Variable props : Props.

Lemma is_success_status (r : option GenerationResult) :
  is_success r = true ↔ status <$> r = Some success.
Proof.
  destruct r as [r|]; simpl; [|done].
  rewrite bool_decide_eq_true. split; [by intros -> | by intros [= ->]].
Qed.

(** A click on a slot that is pending, failed or not there changes
    nothing. *)
Lemma toggleSelection_not_success index st :
  status_at st index ≠ Some success → toggleSelection props index st = st.
Proof.
  intros Hstatus. unfold toggleSelection.
  destruct (is_success (array_get index (generationResults st))) eqn:Hs;
    [|done].
  by apply is_success_status in Hs.
Qed.

(** A click keeps the selection among the successful slots and within
    the smaller of the maximum and the number of successful slots. *)
Lemma toggleSelection_preserves index st :
  selection_refers_to_success st →
  selection_within_bound props st →
  selection_refers_to_success (toggleSelection props index st) ∧
  selection_within_bound props (toggleSelection props index st).
Proof.
  intros Hrefers Hbound. unfold toggleSelection.
  destruct (is_success (array_get index (generationResults st))) eqn:Hs;
    [|done].
  apply is_success_status in Hs. simpl.
  unfold selection_refers_to_success, selection_within_bound, status_at in *.
  simpl. case_bool_decide as Hin; [|case_bool_decide as Hroom].
  - split.
    + intros i Hi. apply list_elem_of_filter in Hi as [_ Hi]. by apply Hrefers.
    + pose proof (length_filter (λ i, i ≠ index) (selectedIndices st)). lia.
  - split.
    + intros i Hi. apply elem_of_app in Hi as [Hi|Hi]; [by apply Hrefers|].
      apply list_elem_of_singleton in Hi. by subst.
    + rewrite length_app. simpl. lia.
  - done.
Qed.

(** Overwriting a slot that does not count cannot lower a count. *)
Lemma filter_insert_grows {A} (P : A → Prop) `{!∀ x, Decision (P x)}
    (l : list A) : ∀ i x y,
  l !! i = Some x → ¬ P x →
  length (filter P l) ≤ length (filter P (<[i := y]> l)).
Proof.
  induction l as [|a l IH]; intros i x y Hi Hx; [done|].
  destruct i as [|i]; simpl in *.
  - simplify_eq. rewrite filter_cons_False by done.
    rewrite filter_cons. case_decide; simpl; lia.
  - rewrite !filter_cons. specialize (IH i x y Hi Hx).
    case_decide; simpl; lia.
Qed.

Lemma status_at_lookup st i s :
  status_at st i = Some s →
  ∃ r, generationResults st !! i = Some (Some r) ∧ status r = s.
Proof.
  unfold status_at, array_get.
  destruct (generationResults st !! i) as [[r|]|]; simpl; [|done|done].
  intros [= <-]. by exists r.
Qed.

(** The bookkeeping of the batch in flight is kept by every step. *)
Lemma step_flight_consistent st a :
  flight_consistent st → flight_consistent (step env props st a).
Proof.
  intros (Hflight & Hidle & Hdefined).
  unfold flight_consistent, in_flight_pending, flight_only_while_generating,
    slots_defined, status_at in *.
  destruct a as [s|n| |i|index]; simpl.
  - case_bool_decide; done.
  - case_bool_decide; done.
  - case_bool_decide as Hgen; [done|].
    unfold handleGenerate.
    destruct (truthy (trim (prompt st))) eqn:Hprompt; simpl.
    + destruct (numberOfImages st =? 0) eqn:Hn; simpl.
      * apply Nat.eqb_eq in Hn. rewrite Hn. simpl.
        split; [|split]; try done.
        intros i Hi. by apply elem_of_nil in Hi.
      * split; [|split]; try done.
        -- intros i Hi. apply list_elem_of_In, in_seq in Hi.
           unfold array_get. rewrite lookup_replicate_2 by lia. done.
        -- apply Forall_replicate. by eexists.
    + rewrite (Hidle Hgen).
      split; [|split]; try done.
      * intros i Hi. by apply elem_of_nil in Hi.
      * apply Forall_singleton. by eexists.
  - destruct (decide (i ∈ unsettled st)) as [Hin|Hnotin];
      [|by rewrite complete_not_in_flight].
    destruct (status_at_lookup st i pending (Hflight i Hin))
      as (r & Hslot & Hpending).
    assert (Hlt : i < length (generationResults st))
      by (by apply lookup_lt_Some in Hslot).
    rewrite complete_in_flight by done. simpl.
    split; [|split].
    + intros j Hj. apply list_elem_of_filter in Hj as [Hne Hj].
      unfold array_get. rewrite list_lookup_insert_ne by done.
      by apply Hflight.
    + case_bool_decide as Hrest; [done|]. intros Hgen.
      rewrite (Hidle Hgen) in Hin. by apply elem_of_nil in Hin.
    + apply Forall_insert; [done | by eexists].
  - unfold toggleSelection.
    destruct (is_success (array_get index (generationResults st))); done.
Qed.

(** Every step of the dialog keeps the selection among the successful
    slots and within its bound, except a click on Generate with a blank
    prompt while something is selected. *)
Lemma step_consistent st a :
  consistent props st → ¬ blank_generate st a →
  consistent props (step env props st a).
Proof.
  intros (Hfc & Hrefers & Hbound) Hsafe.
  split; [by apply step_flight_consistent|].
  destruct Hfc as (Hflight & Hidle & _).
  unfold in_flight_pending, flight_only_while_generating,
    selection_refers_to_success, selection_within_bound, status_at in *.
  destruct a as [s|n| |i|index]; simpl.
  - case_bool_decide; done.
  - case_bool_decide; done.
  - case_bool_decide as Hgen; [done|].
    unfold handleGenerate.
    destruct (truthy (trim (prompt st))) eqn:Hprompt; simpl.
    + destruct (numberOfImages st =? 0) eqn:Hn; simpl.
      * split; [|lia]. intros i Hi. by apply elem_of_nil in Hi.
      * split; [|lia]. intros i Hi. by apply elem_of_nil in Hi.
    + assert (Hnone : selectedIndices st = []).
      { destruct (selectedIndices st) as [|x sel] eqn:Hsel; [done|].
        exfalso. apply Hsafe. repeat split; try done. by rewrite Hsel. }
      rewrite Hnone. simpl.
      split; [|lia]. intros i Hi. by apply elem_of_nil in Hi.
  - destruct (decide (i ∈ unsettled st)) as [Hin|Hnotin];
      [|by rewrite complete_not_in_flight].
    destruct (status_at_lookup st i pending (Hflight i Hin))
      as (r & Hslot & Hpending).
    assert (Hlt : i < length (generationResults st))
      by (by apply lookup_lt_Some in Hslot).
    rewrite complete_in_flight by done. simpl.
    split.
    + intros j Hj.
      assert (Hne : j ≠ i).
      { intros ->. specialize (Hrefers i Hj). rewrite (Hflight i Hin) in Hrefers.
        discriminate. }
      unfold array_get. rewrite list_lookup_insert_ne by done.
      by apply Hrefers.
    + unfold successfulImagesCount in *.
      pose proof (filter_insert_grows (λ r, is_success r = true)
                    (generationResults st) i (Some r)
                    (Some (outcome_result env props (batchPrompt st) i))
                    Hslot) as Hgrow.
      assert (Hnot : ¬ is_success (Some r) = true).
      { simpl. rewrite Hpending. by rewrite bool_decide_eq_false_2. }
      specialize (Hgrow Hnot). lia.
  - by apply toggleSelection_preserves.
Qed.

Lemma initial_consistent : consistent props (initial props).
Proof.
  repeat split; simpl.
  - intros i Hi. by apply elem_of_nil in Hi.
  - apply Forall_nil_2.
  - intros i Hi. by apply elem_of_nil in Hi.
  - unfold selection_within_bound. simpl. lia.
Qed.

(** Hence the selection refers to successful slots and stays within its
    bound in every state reached without such a click. *)
Lemma selection_consistent_without_blank_generate acts : ∀ st,
  consistent props st →
  without_blank_generate env props st acts →
  consistent props (steps env props acts st).
Proof.
  unfold steps. induction acts as [|a acts IH]; intros st Hst Hsafe; [done|].
  destruct Hsafe as [Ha Hrest]. simpl. apply IH; [|done].
  by apply step_consistent.
Qed.

(** The bookkeeping is consistent in every state of the dialog. *)
Lemma flight_consistent_always acts : ∀ st,
  flight_consistent st → flight_consistent (steps env props acts st).
Proof.
  unfold steps. induction acts as [|a acts IH]; intros st Hst; [done|].
  simpl. by apply IH, step_flight_consistent.
Qed.

End StatusSelection.

Section StatusSelectionExamples.

Import GeminiService ImageGenerationDialogStatus Examples.

(** C10 on the code. Two images are generated and both are selected; the
    prompt is then blanked and Generate is clicked. [handleGenerate]
    replaces the status array by a single error slot and leaves the
    selection as it was: index 0 now refers to an error slot, index 1 to
    no slot at all, and two indices are selected while no slot is
    successful. *)
Theorem selection_outlives_blank_prompt_generate :
  let st :=
    steps (flaky (λ _, None)) dialog_props
      [ClickGenerate; Complete 1; Complete 0; ClickTile 0; ClickTile 1;
       TypePrompt "  "; ClickGenerate]
      (initial dialog_props) in
  generationResults st =
    [Some (error_result "Please enter a prompt to generate images.")] ∧
  selectedIndices st = [0; 1] ∧
  status_at st 0 = Some error ∧
  status_at st 1 = None ∧
  successfulImagesCount (generationResults st) = 0 ∧
  handleAddSelected st = [] ∧
  ¬ selection_refers_to_success st ∧
  ¬ selection_within_bound dialog_props st.
Proof.
  repeat split; try reflexivity.
  - intros Hrefers. specialize (Hrefers 0). vm_compute in Hrefers.
    assert (H0 : 0 ∈ [0; 1]) by compute_done.
    specialize (Hrefers H0). discriminate.
  - unfold selection_within_bound. vm_compute. lia.
Qed.

(** Before the blank prompt, the same run satisfies both properties. *)
Lemma selection_before_blank_prompt :
  let st :=
    steps (flaky (λ _, None)) dialog_props
      [ClickGenerate; Complete 1; Complete 0; ClickTile 0; ClickTile 1]
      (initial dialog_props) in
  selectedIndices st = [0; 1] ∧
  status_at st 0 = Some success ∧
  status_at st 1 = Some success ∧
  length (selectedIndices st) =
    Nat.min (maxImagesToAdd dialog_props)
            (successfulImagesCount (generationResults st)).
Proof. repeat split; reflexivity. Qed.

End StatusSelectionExamples.

(** * Further properties *)

(** ** The request builder, field by field *)

Section RequestFields.

Import GeminiService.

Variable params : GenerateVideoParams.

Lemma truthy_non_empty (s : string) : truthy s = true ↔ s ≠ "".
Proof.
  unfold truthy. destruct (String.eqb_spec s ""); simpl; split; congruence.
Qed.

(** X1. A built request carries the prompt exactly when a non-empty
    prompt was given, in every mode; an empty prompt is left out, it is
    not an error. *)
Theorem prompt_sent_only_when_non_empty (payload : Payload) :
  buildPayload params = Ok payload →
  (∀ p, prompt params = Some p → p ≠ "" → pl_prompt payload = Some p) ∧
  (prompt params = None ∨ prompt params = Some "" → pl_prompt payload = None).
Proof.
  intros Hbuilt.
  assert (Hprompt : pl_prompt payload =
            if truthy_opt (prompt params) then prompt params else None).
  { revert Hbuilt. unfold buildPayload.
    destruct (truthy_opt (prompt params));
      repeat case_decide; try congruence; intros Hbuilt.
    all: repeat match goal with
         | H : context [match ?x with _ => _ end] |- _ => destruct x
         end; by simplify_eq. }
  rewrite Hprompt. split.
  - intros p -> Hp. simpl. by rewrite (proj2 (truthy_non_empty p)).
  - by intros [-> | ->].
Qed.

(** X2. A built request carries only the inputs of its own mode: a start
    or end frame outside FRAMES_TO_VIDEO, reference or style images
    outside REFERENCES_TO_VIDEO and a source video outside EXTEND_VIDEO
    are not sent; the model and the resolution are passed on and one
    video is asked for. *)
Theorem inputs_of_other_modes_are_not_sent (payload : Payload) :
  buildPayload params = Ok payload →
  (mode params ≠ FRAMES_TO_VIDEO →
     pl_image payload = None ∧ lastFrame (pl_config payload) = None) ∧
  (mode params ≠ REFERENCES_TO_VIDEO →
     cfg_referenceImages (pl_config payload) = None) ∧
  (mode params ≠ EXTEND_VIDEO → pl_video payload = None) ∧
  pl_model payload = model params ∧
  cfg_resolution (pl_config payload) = resolution params ∧
  numberOfVideos (pl_config payload) = 1.
Proof.
  unfold buildPayload.
  destruct (truthy_opt (prompt params));
    repeat case_decide; try congruence; intros Hbuilt.
  all: repeat match goal with
       | H : context [match ?x with _ => _ end] |- _ => destruct x
       | H : context [if ?x then _ else _] |- _ => destruct x
       end; simplify_eq; simpl; repeat split; try done.
Qed.

(** X3. A REFERENCES_TO_VIDEO request is always built; its reference
    list holds, for each asset image in its order, an ASSET reference
    with the base64 text and the MIME type of that image, followed by a
    STYLE reference with those of the style image when there is one, so
    it holds at most one style reference and that one is last; with no
    image at all the list is left out. *)
Theorem reference_list_of_request :
  mode params = REFERENCES_TO_VIDEO →
  ∃ payload,
    buildPayload params = Ok payload ∧
    cfg_referenceImages (pl_config payload) =
      (if decide (references_of params = []) then None
       else Some (references_of params)) ∧
    length (references_of params) =
      length (default [] (referenceImages params)) +
      match styleImage params with Some _ => 1 | None => 0 end ∧
    (∀ j img,
       default [] (referenceImages params) !! j = Some img →
       references_of params !! j =
         Some {| ref_image := {| imageBytes := base64 img;
                                 mimeType := file_type (file img) |};
                 referenceType := ASSET |}) ∧
    (∀ img,
       styleImage params = Some img →
       references_of params !! length (default [] (referenceImages params)) =
         Some {| ref_image := {| imageBytes := base64 img;
                                 mimeType := file_type (file img) |};
                 referenceType := STYLE |}) ∧
    length (filter (λ r, is_style r = true) (references_of params)) ≤ 1.
Proof.
  intros Hmode.
  assert (Hassets : ∀ j img,
    default [] (referenceImages params) !! j = Some img →
    references_of params !! j =
      Some {| ref_image := {| imageBytes := base64 img;
                              mimeType := file_type (file img) |};
              referenceType := ASSET |}).
  { intros j img Hj. unfold references_of.
    rewrite lookup_app_l
      by (rewrite length_map; by apply lookup_lt_Some with img).
    by rewrite list_lookup_fmap, Hj. }
  assert (Hlast : ∀ img,
    styleImage params = Some img →
    references_of params !! length (default [] (referenceImages params)) =
      Some {| ref_image := {| imageBytes := base64 img;
                              mimeType := file_type (file img) |};
              referenceType := STYLE |}).
  { intros img Himg. unfold references_of. rewrite Himg.
    rewrite lookup_app_r by (by rewrite length_map).
    by rewrite length_map, Nat.sub_diag. }
  assert (Hbuilt : ∃ payload,
    buildPayload params = Ok payload ∧
    cfg_referenceImages (pl_config payload) =
      (if decide (references_of params = []) then None
       else Some (references_of params)) ∧
    length (references_of params) =
      length (default [] (referenceImages params)) +
      match styleImage params with Some _ => 1 | None => 0 end ∧
    length (filter (λ r, is_style r = true) (references_of params)) ≤ 1).
  { clear Hassets Hlast. unfold buildPayload. rewrite Hmode.
    rewrite (decide_False (P := REFERENCES_TO_VIDEO = FRAMES_TO_VIDEO))
      by done.
    rewrite (decide_True (P := REFERENCES_TO_VIDEO = REFERENCES_TO_VIDEO))
      by done.
    assert (Hstyle : ∀ imgs : list ImageFile,
              filter (λ r, is_style r = true) (map asset_reference imgs) = []).
    { induction imgs as [|img imgs IH]; [done|]. simpl.
      rewrite filter_cons_False; [done | by simpl]. }
    unfold references_of.
    destruct (referenceImages params) as [[|img0 imgs]|],
      (styleImage params) as [img|];
      simpl;
      (eexists; split; [reflexivity|]);
      rewrite ?filter_app, ?length_app, ?length_map, ?app_nil_r;
      simpl; (split; [by destruct (truthy_opt (prompt params))|]);
      (split; [lia|]);
      rewrite ?filter_cons_False, ?filter_app, ?Hstyle by (by simpl);
      rewrite ?filter_cons_True by done; simpl; lia. }
  destruct Hbuilt as (payload & Hpayload & Hrefs & Hlen & Hone).
  exists payload. repeat split; done.
Qed.

(** X4. The only request that is refused before submission is an
    EXTEND_VIDEO request without a source video; with a source video the
    request is built and carries that video. *)
Theorem validation_refuses_only_extend_without_source :
  (∀ err,
     buildPayload params = Throw err ↔
     mode params = EXTEND_VIDEO ∧ inputVideoObject params = None ∧
     err = ErrorObject "An input video object is required to extend a video.") ∧
  (∀ v,
     mode params = EXTEND_VIDEO → inputVideoObject params = Some v →
     ∃ payload, buildPayload params = Ok payload ∧ pl_video payload = Some v).
Proof.
  split.
  - intros err. split.
    + destruct (decide (mode params = EXTEND_VIDEO)) as [Hmode|Hmode].
      * rewrite (buildPayload_extend params Hmode).
        destruct (inputVideoObject params); [done|]. by intros [= <-].
      * destruct (buildPayload_total params Hmode) as [payload ->]. done.
    + intros (Hmode & Hvideo & ->).
      by rewrite (buildPayload_extend params Hmode), Hvideo.
  - intros v Hmode Hvideo.
    rewrite (buildPayload_extend params Hmode), Hvideo.
    eexists. split; [reflexivity|]. done.
Qed.

End RequestFields.

(** ** Runs of generateVideo *)

Section Runs.

Import GeminiService.

Variable env : Provider.

(** One turn of the loop. *)
Lemma poll_unfold fuel k operation t :
  poll env fuel k operation t =
    if is_done operation then (Returned operation, t ++ [CheckDone operation])
    else
      match fuel with
      | 0 => (Running, t ++ [CheckDone operation])
      | S fuel' =>
          match getVideosOperation env k operation with
          | Ok next => poll env fuel' (S k) next (t ++ round operation)
          | Throw err => (Threw err, t ++ round operation)
          end
      end.
Proof.
  destruct fuel as [|fuel]; simpl; unfold bind at 1, emit at 1; simpl;
    destruct (is_done operation); try done.
  unfold bind at 1, emit at 1. simpl.
  unfold bind at 1, emit at 1. simpl. unfold bind at 1.
  destruct (getVideosOperation env k operation); simpl;
    by rewrite <- !app_assoc.
Qed.

(** The loop, whatever the provider answers: it runs a number of rounds,
    then returns the first handle that is done, or throws what a poll
    threw, or is still running when the fuel is spent. *)
Lemma poll_shape fuel : ∀ k operation t,
  ∃ ops,
    length ops ≤ fuel ∧
    ((∃ final, poll env fuel k operation t =
                 (Returned final, t ++ flat_map round ops ++ [CheckDone final])) ∨
     (∃ err, poll env fuel k operation t = (Threw err, t ++ flat_map round ops)) ∨
     (∃ final, poll env fuel k operation t =
                 (Running, t ++ flat_map round ops ++ [CheckDone final]))).
Proof.
  induction fuel as [|fuel IH]; intros k operation t; rewrite poll_unfold;
    destruct (is_done operation) eqn:Hdone.
  - exists []. split; [done|]. left. by exists operation.
  - exists []. split; [done|]. right. right. by exists operation.
  - exists []. split; [simpl; lia|]. left. by exists operation.
  - destruct (getVideosOperation env k operation) as [next|err] eqn:Hnext.
    + destruct (IH (S k) next (t ++ round operation)) as (ops & Hlen & Hcases).
      exists (operation :: ops). split; [simpl; lia|].
      cbn [flat_map].
      destruct Hcases as [[final ->]|[[err ->]|[final ->]]].
      * left. exists final. by rewrite <- !app_assoc.
      * right. left. exists err. by rewrite <- !app_assoc.
      * right. right. exists final. by rewrite <- !app_assoc.
    + exists [operation]. split; [simpl; lia|]. right. left. exists err.
      cbn [flat_map]. by rewrite app_nil_r.
Qed.

(** The part after the loop: no event and an error, a fetch and an
    error, or a fetch, an object URL and the result. *)
Lemma retrieve_shape operation t :
  (∃ err, retrieve env operation t = (Threw err, t)) ∨
  (∃ err url, retrieve env operation t = (Threw err, t ++ [Fetch url])) ∨
  (∃ result url videoBlob,
     retrieve env operation t =
       (Returned result, t ++ [Fetch url; CreateObjectURL videoBlob])).
Proof.
  unfold retrieve.
  destruct (response operation) as [resp|]; [|left; by eexists].
  destruct (generatedVideos resp) as [[|firstVideo others]|];
    [left; by eexists| |left; by eexists].
  destruct (video firstVideo) as [videoObject|]; [|left; by eexists].
  destruct (uri videoObject) as [u|]; [|left; by eexists].
  destruct (truthy u); [|left; by eexists].
  unfold bind, emit, ret, throw.
  destruct (decodeURIComponent env u) as [url|]; simpl; [|left; by eexists].
  destruct (fetch env _) as [res|]; simpl; [|right; left; by eexists _, _].
  destruct (ok res); simpl; [|right; left; by eexists _, _].
  destruct (body res) as [videoBlob|]; simpl.
  - right. right. eexists _, _, _. by rewrite <- app_assoc.
  - right. left. by eexists _, _.
Qed.

(** [generateVideo] once the request is built. *)
Lemma generateVideo_unfold fuel params payload :
  buildPayload params = Ok payload →
  generateVideo env fuel params [] =
    match generateVideos env payload with
    | Throw err => (Threw err, [GenerateVideos payload])
    | Ok op0 =>
        match poll env fuel 0 op0 [GenerateVideos payload] with
        | (Returned final, t1) => retrieve env final t1
        | (Threw err, t1) => (Threw err, t1)
        | (Running, t1) => (Running, t1)
        end
    end.
Proof.
  intros Hbuilt. unfold generateVideo. rewrite Hbuilt. simpl.
  unfold bind at 1, ret at 1. unfold bind at 1, emit at 1.
  unfold bind at 1. destruct (generateVideos env payload); simpl; [|done].
  unfold bind at 1. by destruct (poll env fuel 0 _ _) as [[| |] ?].
Qed.

(** X5. A run of [generateVideo] has this trace and no other: nothing at
    all when the request is refused before submission; otherwise one
    submission, then rounds of the loop, each made of a test of the
    flag, a wait of 10 seconds and one poll, then at most one fetch and
    at most one object URL. The request is never submitted twice, a poll
    is never made without the wait before it, and an object URL is
    created exactly when the run returns a result. *)
Theorem trace_of_generateVideo (fuel : nat) (params : GenerateVideoParams) :
  let run := generateVideo env fuel params [] in
  (snd run = [] ∧ ∃ err, buildPayload params = Throw err ∧ fst run = Threw err) ∨
  (∃ payload ops tail,
     buildPayload params = Ok payload ∧
     snd run = GenerateVideos payload :: flat_map round ops ++ tail ∧
     length ops ≤ fuel ∧
     after_loop tail ∧
     is_returned (fst run) = existsb is_object_url tail).
Proof.
  intros run. subst run.
  destruct (buildPayload params) as [payload|err] eqn:Hbuilt.
  - right. exists payload. rewrite (generateVideo_unfold _ _ _ Hbuilt).
    destruct (generateVideos env payload) as [op0|err].
    + destruct (poll_shape fuel 0 op0 [GenerateVideos payload])
        as (ops & Hlen & [[final Hp]|[[err Hp]|[final Hp]]]); rewrite Hp.
      * destruct (retrieve_shape final
                    ([GenerateVideos payload] ++ flat_map round ops ++
                     [CheckDone final]))
          as [[err Hr]|[(err & url & Hr)|(result & url & b & Hr)]];
          rewrite Hr; simpl.
        -- exists ops, [CheckDone final]. repeat split; try done.
           right. exists final. by left.
        -- exists ops, [CheckDone final; Fetch url].
           rewrite <- !app_assoc. repeat split; try done.
           right. exists final. right. exists url. by left.
        -- exists ops, [CheckDone final; Fetch url; CreateObjectURL b].
           rewrite <- !app_assoc. repeat split; try done.
           right. exists final. right. exists url. right. by exists b.
      * exists ops, []. simpl. rewrite app_nil_r. repeat split; try done.
        by left.
      * exists ops, [CheckDone final]. simpl. repeat split; try done.
        right. exists final. by left.
    + exists [], []. simpl. repeat split; try done; [lia | by left].
  - left. unfold generateVideo. rewrite Hbuilt. simpl.
    split; [done|]. by exists err.
Qed.

(** X6. When the provider refuses the submission, [generateVideo] throws
    what the provider threw; it has submitted once and does not poll,
    fetch or submit again. *)
Theorem submission_error_is_final
    (fuel : nat) (params : GenerateVideoParams) (payload : Payload)
    (err : Thrown) :
  buildPayload params = Ok payload →
  generateVideos env payload = Throw err →
  generateVideo env fuel params [] = (Threw err, [GenerateVideos payload]).
Proof.
  intros Hbuilt Hsubmit.
  by rewrite (generateVideo_unfold _ _ _ Hbuilt), Hsubmit.
Qed.

(** The loop up to a poll that throws. *)
Lemma poll_throws (ops : nat → Operation) (err : Thrown) (n : nat) :
  ∀ fuel k t,
    n < fuel →
    (∀ j, j ≤ n → is_done (ops (k + j)) = false) →
    (∀ j, j < n →
       getVideosOperation env (k + j) (ops (k + j)) = Ok (ops (k + S j))) →
    getVideosOperation env (k + n) (ops (k + n)) = Throw err →
    poll env fuel k (ops k) t =
      (Threw err, t ++ flat_map (λ j, round (ops (k + j))) (seq 0 (S n))).
Proof.
  induction n as [|n IH]; intros fuel k t Hfuel Hnot Hnext Hthrow;
    (destruct fuel as [|fuel]; [lia|]);
    pose proof (Hnot 0 ltac:(lia)) as H0; rewrite Nat.add_0_r in H0;
    rewrite poll_unfold, H0.
  - rewrite Nat.add_0_r in Hthrow. rewrite Hthrow. simpl.
    by rewrite Nat.add_0_r.
  - pose proof (Hnext 0 ltac:(lia)) as H1. rewrite Nat.add_0_r in H1.
    rewrite H1. replace (k + 1) with (S k) by lia.
    rewrite (IH fuel (S k)); [| lia | | | ].
    + rewrite <- !app_assoc. f_equal. f_equal.
      change (seq 0 (S (S n))) with (0 :: seq 1 (S n)).
      cbn [flat_map]. rewrite Nat.add_0_r. f_equal.
      rewrite (flat_map_seq_S (λ j, round (ops (k + j))) 0 (S n)).
      apply flat_map_ext. intros j. by rewrite !Nat.add_succ_r.
    + intros j Hj. replace (S k + j) with (k + S j) by lia. apply Hnot. lia.
    + intros j Hj. replace (S k + j) with (k + S j) by lia.
      replace (S k + S j) with (k + S (S j)) by lia. apply Hnext. lia.
    + replace (S k + n) with (k + S n) by lia. exact Hthrow.
Qed.

(** X7. When a poll throws, [generateVideo] throws the same error and
    stops there: the failing poll is the last event, nothing is polled
    again and nothing is fetched. *)
Theorem poll_error_is_final
    (fuel n : nat) (params : GenerateVideoParams) (payload : Payload)
    (ops : nat → Operation) (err : Thrown) :
  buildPayload params = Ok payload →
  generateVideos env payload = Ok (ops 0) →
  (∀ j, j ≤ n → is_done (ops j) = false) →
  (∀ j, j < n → getVideosOperation env j (ops j) = Ok (ops (S j))) →
  getVideosOperation env n (ops n) = Throw err →
  n < fuel →
  generateVideo env fuel params [] =
    (Threw err,
     GenerateVideos payload :: flat_map (λ j, round (ops j)) (seq 0 (S n))).
Proof.
  intros Hbuilt Hsubmit Hnot Hnext Hthrow Hfuel.
  rewrite (generateVideo_unfold _ _ _ Hbuilt), Hsubmit.
  by rewrite (poll_throws ops err n fuel 0).
Qed.

(** The loop on a provider whose handles are never done. *)
Lemma poll_never_done (ops : nat → Operation) :
  (∀ j, is_done (ops j) = false) →
  (∀ j, getVideosOperation env j (ops j) = Ok (ops (S j))) →
  ∀ fuel k t,
    poll env fuel k (ops k) t =
      (Running,
       t ++ flat_map (λ j, round (ops (k + j))) (seq 0 fuel)
         ++ [CheckDone (ops (k + fuel))]).
Proof.
  intros Hnot Hnext. induction fuel as [|fuel IH]; intros k t;
    rewrite poll_unfold, Hnot.
  - simpl. by rewrite Nat.add_0_r.
  - rewrite Hnext, IH. rewrite <- !app_assoc. f_equal. f_equal.
    change (seq 0 (S fuel)) with (0 :: seq 1 fuel).
    cbn [flat_map]. rewrite Nat.add_0_r, Nat.add_succ_r.
    rewrite <- !app_assoc. f_equal.
    rewrite (flat_map_seq_S (λ j, round (ops (k + j))) 0 fuel). f_equal.
    apply flat_map_ext. intros j. by rewrite Nat.add_succ_r.
Qed.

Lemma polls_of_rounds (ops : list Operation) :
  length (filter (λ e, is_poll e = true) (flat_map round ops)) = length ops.
Proof.
  induction ops as [|op ops IH]; [done|]. cbn [flat_map].
  rewrite filter_app, length_app, IH. reflexivity.
Qed.

(** X8. The loop has no bound and no timeout of its own: while the
    provider keeps answering handles that are not done, [generateVideo]
    neither returns nor throws, and it has polled as many times as it
    was given turns. *)
Theorem polling_has_no_bound
    (fuel : nat) (params : GenerateVideoParams) (payload : Payload)
    (ops : nat → Operation) :
  buildPayload params = Ok payload →
  generateVideos env payload = Ok (ops 0) →
  (∀ j, is_done (ops j) = false) →
  (∀ j, getVideosOperation env j (ops j) = Ok (ops (S j))) →
  let run := generateVideo env fuel params [] in
  fst run = Running ∧
  length (filter (λ e, is_poll e = true) (snd run)) = fuel ∧
  filter (λ e, is_network e && negb (is_poll e) = true) (snd run) =
    [GenerateVideos payload].
Proof.
  intros Hbuilt Hsubmit Hnot Hnext run.
  assert (Hrun : run =
    (Running,
     [GenerateVideos payload] ++
     flat_map round (map ops (seq 0 fuel)) ++ [CheckDone (ops fuel)])).
  { unfold run. rewrite (generateVideo_unfold _ _ _ Hbuilt), Hsubmit.
    rewrite (poll_never_done ops Hnot Hnext fuel 0). simpl.
    by rewrite (flat_map_concat_map round), map_map, <- flat_map_concat_map. }
  rewrite Hrun. simpl. split; [done|]. split.
  - rewrite filter_cons_False by (by simpl).
    rewrite filter_app, length_app, polls_of_rounds, length_map, length_seq.
    rewrite filter_cons_False by (by simpl). simpl. lia.
  - rewrite filter_cons_True by done. f_equal.
    apply filter_none. intros e He.
    apply elem_of_app in He as [He|He].
    + apply list_elem_of_In, in_flat_map in He as (op & _ & He).
      simpl in He. destruct He as [<-|[<-|[<-|[]]]]; by simpl.
    + apply list_elem_of_singleton in He. subst. by simpl.
Qed.

End Runs.

Section RunsExamples.

Import GeminiService Examples.

Lemma prompt_sent_witness :
  buildPayload text_params = Ok text_payload ∧
  pl_prompt text_payload = Some "a red kite over the sea".
Proof.
  split; [reflexivity|].
  apply (prompt_sent_only_when_non_empty text_params text_payload eq_refl);
    [reflexivity | discriminate].
Defined.

Lemma inputs_of_other_modes_witness :
  buildPayload (with_mode TEXT_TO_VIDEO looping_params) =
    Ok text_payload ∧
  pl_image text_payload = None ∧ lastFrame (pl_config text_payload) = None.
Proof.
  split; [reflexivity|].
  apply (inputs_of_other_modes_are_not_sent
           (with_mode TEXT_TO_VIDEO looping_params) text_payload eq_refl).
  discriminate.
Defined.

Lemma reference_list_witness :
  mode references_params = REFERENCES_TO_VIDEO ∧
  ∃ payload,
    buildPayload references_params = Ok payload ∧
    cfg_referenceImages (pl_config payload) =
      Some (references_of references_params) ∧
    references_of references_params !! 1 =
      Some {| ref_image := {| imageBytes := "iVBORw0KGgo=";
                              mimeType := "image/png" |};
              referenceType := ASSET |} ∧
    references_of references_params !! 2 =
      Some {| ref_image := {| imageBytes := "iVBORw0KGgo=";
                              mimeType := "image/png" |};
              referenceType := STYLE |}.
Proof.
  split; [reflexivity|].
  destruct (reference_list_of_request references_params eq_refl)
    as (payload & Hbuilt & Hrefs & _ & Hassets & Hstyle & _).
  exists payload. split; [exact Hbuilt|]. split; [exact Hrefs|]. split.
  - exact (Hassets 1 (png "sea.png") eq_refl).
  - exact (Hstyle (png "ink.png") eq_refl).
Defined.

Lemma validation_witness :
  buildPayload extend_params =
    Throw (ErrorObject "An input video object is required to extend a video.") ∧
  ∃ payload,
    buildPayload continue_params = Ok payload ∧ pl_video payload = Some clip.
Proof.
  destruct (validation_refuses_only_extend_without_source extend_params)
    as [Hrefused _].
  destruct (validation_refuses_only_extend_without_source continue_params)
    as [_ Hbuilt].
  split.
  - apply Hrefused. repeat split; reflexivity.
  - apply (Hbuilt clip); reflexivity.
Defined.

Lemma submission_error_witness :
  generateVideo refusing 3 text_params [] =
    (Threw (ErrorObject "403 Forbidden"), [GenerateVideos text_payload]).
Proof.
  apply (submission_error_is_final refusing 3 text_params text_payload);
    reflexivity.
Defined.

Lemma poll_error_witness :
  generateVideo breaking 5 text_params [] =
    (Threw (ErrorObject "500 Internal"),
     [GenerateVideos text_payload;
      CheckDone (waiting 0); SetTimeout 10000%N; GetVideosOperation (waiting 0);
      CheckDone (waiting 1); SetTimeout 10000%N; GetVideosOperation (waiting 1)]).
Proof.
  apply (poll_error_is_final breaking 5 1 text_params text_payload waiting
           (ErrorObject "500 Internal"));
    [ reflexivity | reflexivity | intros j Hj; reflexivity
    | intros [|j] Hj; [reflexivity | lia] | reflexivity | lia ].
Defined.

Lemma polling_has_no_bound_witness :
  fst (generateVideo stalling 3 text_params []) = Running ∧
  length (filter (λ e, is_poll e = true)
            (snd (generateVideo stalling 3 text_params []))) = 3.
Proof.
  destruct (polling_has_no_bound stalling 3 text_params text_payload waiting
              eq_refl eq_refl (λ j, eq_refl) (λ j, eq_refl))
    as (Hrunning & Hpolls & _).
  split; [exact Hrunning | exact Hpolls].
Defined.

End RunsExamples.

(** ** The images of generateImages *)

Section Images.

Import GeminiService.

Variable env : ImageProvider.

Lemma string_length_app (s t : string) :
  String.length (s +:+ t) = String.length s + String.length t.
Proof. induction s as [|c s IH]; simpl; [done|]. by rewrite IH. Qed.

Lemma string_app_inv_tail (t : string) : ∀ s1 s2,
  s1 +:+ t = s2 +:+ t → s1 = s2.
Proof.
  induction s1 as [|c1 s1 IH]; intros [|c2 s2] Heq.
  - done.
  - apply (f_equal String.length) in Heq.
    rewrite !string_length_app in Heq. simpl in Heq. lia.
  - apply (f_equal String.length) in Heq.
    rewrite !string_length_app in Heq. simpl in Heq. lia.
  - injection Heq as -> Heq. f_equal. by apply IH.
Qed.

(** The file names of two slots are the same only for the same slot. *)
Lemma image_name_inj (i j : nat) :
  "generated-image-" +:+ pretty i +:+ ".png" =
  "generated-image-" +:+ pretty j +:+ ".png" → i = j.
Proof.
  intros Heq. simpl in Heq. simplify_eq.
  apply string_app_inv_tail in Heq. by apply (inj pretty).
Qed.

Lemma firstInlineData_Some (ps : list Part) (d : string) :
  firstInlineData ps = Some d →
  ∃ before part after,
    ps = before ++ part :: after ∧
    Forall (λ p, inlineData p = None) before ∧
    inlineData part = Some d.
Proof.
  induction ps as [|p ps IH]; simpl; [done|].
  destruct (inlineData p) as [d'|] eqn:Hp.
  - intros [= <-]. exists [], p, ps. by repeat split.
  - intros Hrest. destruct (IH Hrest) as (before & part & after & -> & Hb & Hd).
    exists (p :: before), part, after. repeat split; [|done].
    by constructor.
Qed.

Lemma firstInlineData_None (ps : list Part) :
  Forall (λ p, inlineData p = None) ps → firstInlineData ps = None.
Proof.
  induction ps as [|p ps IH]; intros Hnone; [done|].
  apply Forall_cons in Hnone as [Hp Hrest]. simpl. rewrite Hp. by apply IH.
Qed.

Lemma partsOf_Ok (response : GenerateContentResponse) (ps : list Part) :
  partsOf response = Ok ps →
  ∃ c cs ct,
    candidates response = Some (c :: cs) ∧ content c = Some ct ∧
    parts ct = Some ps.
Proof.
  unfold partsOf.
  destruct (candidates response) as [[|c cs]|] eqn:Hc; [done| |done].
  destruct (content c) as [ct|] eqn:Hct; [|done].
  destruct (parts ct) as [ps'|] eqn:Hps; [|done].
  intros [= <-]. by exists c, cs, ct.
Qed.

(** The name and the type of the file of a request that succeeds. *)
Lemma image_of_a_call_names (prompt : string) (i : nat) (f : ImageFile) :
  imagePromise env prompt i = Ok f →
  file_name (file f) = "generated-image-" +:+ pretty i +:+ ".png" ∧
  file_type (file f) = "image/png".
Proof.
  unfold imagePromise.
  destruct (generateContent env i prompt) as [response|]; [|done].
  destruct (partsOf response) as [ps|]; [|done].
  destruct (firstInlineData ps) as [d|]; [|done].
  unfold base64ToImageFile.
  destruct (fetchData env _) as [blob|]; [|done].
  by intros [= <-].
Qed.

(** X9. The image of a request that succeeds is made from the first part
    with inline data among the parts of the first candidate of the
    answer: its base64 text is that data unchanged, its file is what the
    browser decodes from the [data:] URL of that text, of type image/png
    and named after the slot. *)
Theorem image_of_a_call (prompt : string) (i : nat) (f : ImageFile) :
  imagePromise env prompt i = Ok f →
  ∃ response c cs ct before part after,
    generateContent env i prompt = Ok response ∧
    candidates response = Some (c :: cs) ∧
    content c = Some ct ∧
    parts ct = Some (before ++ part :: after) ∧
    Forall (λ p, inlineData p = None) before ∧
    inlineData part = Some (base64 f) ∧
    fetchData env ("data:image/png;base64," +:+ base64 f) =
      Ok (file_blob (file f)) ∧
    file_type (file f) = "image/png" ∧
    file_name (file f) = "generated-image-" +:+ pretty i +:+ ".png".
Proof.
  unfold imagePromise.
  destruct (generateContent env i prompt) as [response|] eqn:Hresponse; [|done].
  destruct (partsOf response) as [ps|] eqn:Hparts; [|done].
  destruct (firstInlineData ps) as [d|] eqn:Hdata; [|done].
  unfold base64ToImageFile.
  destruct (fetchData env _) as [blob|] eqn:Hfetch; [|done].
  intros [= <-]. simpl.
  destruct (partsOf_Ok _ _ Hparts) as (c & cs & ct & Hc & Hct & Hps).
  destruct (firstInlineData_Some _ _ Hdata)
    as (before & part & after & -> & Hbefore & Hpart).
  exists response, c, cs, ct, before, part, after. by repeat split.
Qed.

(** X10. A request whose answer has no part with inline data fails, and
    the error names the image by its position counted from 1. *)
Theorem answer_without_image_fails (prompt : string) (i : nat)
    (response : GenerateContentResponse) (ps : list Part) :
  generateContent env i prompt = Ok response →
  partsOf response = Ok ps →
  Forall (λ p, inlineData p = None) ps →
  imagePromise env prompt i =
    Throw (ErrorObject ("Image generation failed for image " +:+ pretty (i + 1)
                        +:+ ". No image data returned.")).
Proof.
  intros Hresponse Hparts Hnone. unfold imagePromise.
  rewrite Hresponse, Hparts.
  by rewrite (firstInlineData_None ps Hnone).
Qed.

(** The first call of a schedule that fails, if there is one. *)
Lemma first_failure (prompt : string) (schedule : list nat) :
  (∀ i, i ∈ schedule → ∃ f, imagePromise env prompt i = Ok f) ∨
  (∃ before i after err,
     schedule = before ++ i :: after ∧
     (∀ j, j ∈ before → ∃ f, imagePromise env prompt j = Ok f) ∧
     imagePromise env prompt i = Throw err).
Proof.
  induction schedule as [|i schedule IH].
  - left. intros i Hi. by apply elem_of_nil in Hi.
  - destruct (imagePromise env prompt i) as [f|err] eqn:Hi.
    + destruct IH as [Hall|(before & j & after & err & -> & Hbefore & Hj)].
      * left. intros j Hj. apply elem_of_cons in Hj as [->|Hj]; eauto.
      * right. exists (i :: before), j, after, err. repeat split; [|done].
        intros k Hk. apply elem_of_cons in Hk as [->|Hk]; eauto.
    + right. exists [], i, schedule, err. repeat split; [|done].
      intros j Hj. by apply elem_of_nil in Hj.
Qed.

Lemma omap_all_Some {A} (g : nat → option A) (l : list nat) :
  (∀ i, i ∈ l → is_Some (g i)) →
  Forall2 (λ i x, g i = Some x) l (omap g l).
Proof.
  induction l as [|a l IH]; intros Hall; csimpl; [constructor|].
  destruct (Hall a) as [x Hx]; [by left|]. rewrite Hx.
  constructor; [done|]. apply IH. intros i Hi. apply Hall. by right.
Qed.

(** X11. Whatever the order in which the calls settle, a list returned
    by [generateImages] has one image per request, the image at index i
    being the one of request i, named generated-image-i.png; no two
    images of the list have the same file name. *)
Theorem returned_images_are_in_slot_order
    (prompt : string) (n : nat) (schedule : list nat) (fs : list ImageFile) :
  schedule ≡ₚ seq 0 n →
  result_of (generateImages env prompt n schedule) = Returned fs →
  length fs = n ∧
  (∀ i, i < n →
     ∃ f, fs !! i = Some f ∧ imagePromise env prompt i = Ok f ∧
          file_name (file f) = "generated-image-" +:+ pretty i +:+ ".png") ∧
  NoDup (map (λ f, file_name (file f)) fs).
Proof.
  intros Hperm Hreturned.
  destruct (generateImages_outcomes env prompt n schedule Hperm)
    as (_ & Hall & Hfail).
  assert (Hin : ∀ i, i ∈ schedule ↔ i < n).
  { intros i. rewrite Hperm, list_elem_of_In, in_seq. lia. }
  destruct (first_failure prompt schedule)
    as [Hsucc|(before & i & after & err & Hsched & Hbefore & Hi)].
  2: { destruct (Hfail before i after err Hsched Hbefore Hi) as [Hthrew _].
       rewrite Hthrew in Hreturned. discriminate. }
  assert (Hok : ∀ i, i < n → ∃ f, imagePromise env prompt i = Ok f)
    by (intros i Hi; by apply Hsucc, Hin).
  destruct (Hall Hok) as (Hres & Hlen & _).
  rewrite Hres in Hreturned. injection Hreturned as <-.
  assert (Hpair : Forall2 (λ i f, asset_of env prompt i = Some f)
                    (seq 0 n) (successful_assets env prompt n)).
  { apply omap_all_Some. intros i Hi. apply list_elem_of_In, in_seq in Hi.
    destruct (Hok i) as [f Hf]; [lia|]. unfold asset_of. rewrite Hf. by eexists. }
  assert (Hslot : ∀ i f, successful_assets env prompt n !! i = Some f →
                         i < n ∧ imagePromise env prompt i = Ok f).
  { intros i f Hf.
    destruct (Forall2_lookup_r _ _ _ _ _ Hpair Hf) as (j & Hj & Hasset).
    apply lookup_seq in Hj as [-> Hlt]. split; [done|].
    unfold asset_of in Hasset. simpl in Hasset.
    destruct (imagePromise env prompt i); by simplify_eq. }
  assert (Hname : ∀ i f, imagePromise env prompt i = Ok f →
            file_name (file f) = "generated-image-" +:+ pretty i +:+ ".png").
  { intros i f Hf.
    by destruct (image_of_a_call_names prompt i f Hf). }
  split; [done|]. split.
  - intros i Hi.
    destruct (Forall2_lookup_l _ _ _ i i Hpair) as (f & Hf & Hasset);
      [by apply lookup_seq|].
    destruct (Hslot i f Hf) as [_ Hcall]. exists f. eauto.
  - apply NoDup_alt. intros i j name Hi Hj.
    rewrite list_lookup_fmap in Hi, Hj.
    destruct (successful_assets env prompt n !! i) as [f|] eqn:Hf; [|done].
    destruct (successful_assets env prompt n !! j) as [g|] eqn:Hg; [|done].
    simpl in Hi, Hj. simplify_eq.
    destruct (Hslot i f Hf) as [_ Hcf]. destruct (Hslot j g Hg) as [_ Hcg].
    apply image_name_inj. by rewrite <- (Hname i f Hcf), <- (Hname j g Hcg).
Qed.

(** X12. Asked for no image, [generateImages] sends no request and
    returns the empty list at once, whatever the provider and the event
    loop do. *)
Theorem generateImages_of_none (prompt : string) (schedule : list nat) :
  let s := generateImages env prompt 0 schedule in
  result_of s = Returned [] ∧ resumed_after s = Some 0 ∧ imagePromises s = [].
Proof.
  assert (Hrun : generateImages env prompt 0 schedule = start 0).
  { unfold generateImages, run.
    induction schedule as [|i schedule IH] using rev_ind; [done|].
    rewrite fold_left_app. simpl. by rewrite IH. }
  simpl. by rewrite Hrun.
Qed.

(** X13. While every call that has settled succeeded and some call has
    not settled yet, [generateImages] has not returned: it yields no
    partial list. *)
Theorem generateImages_waits_for_every_call
    (prompt : string) (n : nat) (settled : list nat) :
  NoDup settled →
  (∀ i, i ∈ settled → i < n) →
  (∀ i, i ∈ settled → ∃ f, imagePromise env prompt i = Ok f) →
  length settled < n →
  let s := generateImages env prompt n settled in
  result_of s = Running ∧ resumed_after s = None ∧
  remaining s = n - length settled.
Proof.
  intros Hnodup Hbound Hsucc Hlen s. unfold s, result_of.
  rewrite run_all_succeed by done. cbn [awaited resumed_after remaining].
  by rewrite (proj2 (Nat.eqb_neq (length settled) n)) by lia.
Qed.

End Images.

Section ImagesExamples.

Import GeminiService Examples.

Lemma image_of_a_call_witness :
  imagePromise (flaky (λ _, None)) "a cat" 1 = Ok (generated 1) ∧
  ∃ response c cs ct before part after,
    generateContent (flaky (λ _, None)) 1 "a cat" = Ok response ∧
    candidates response = Some (c :: cs) ∧
    content c = Some ct ∧
    parts ct = Some (before ++ part :: after) ∧
    inlineData part = Some "aGVsbG8=".
Proof.
  split; [reflexivity|].
  destruct (image_of_a_call (flaky (λ _, None)) "a cat" 1 (generated 1) eq_refl)
    as (response & c & cs & ct & before & part & after &
        H1 & H2 & H3 & H4 & _ & H6 & _).
  exists response, c, cs, ct, before, part, after.
  repeat split; assumption.
Defined.

(** An image provider that answers with text only. *)
Lemma answer_without_image_witness :
  imagePromise
    {| generateContent := λ _ _,
         Ok {| candidates :=
                 Some [{| content :=
                            Some {| parts :=
                                      Some [{| inlineData := None;
                                               text := Some "I cannot." |}] |} |}] |};
       fetchData := λ _, Throw (NonError "unused") |} "a cat" 2 =
  Throw (ErrorObject "Image generation failed for image 3. No image data returned.").
Proof.
  apply (answer_without_image_fails _ "a cat" 2
           {| candidates :=
                Some [{| content :=
                           Some {| parts :=
                                     Some [{| inlineData := None;
                                              text := Some "I cannot." |}] |} |}] |}
           [{| inlineData := None; text := Some "I cannot." |}]);
    [reflexivity | reflexivity |].
  apply Forall_cons. split; [reflexivity | apply Forall_nil_2].
Defined.

Lemma returned_images_witness :
  result_of (generateImages (flaky (λ _, None)) "a cat" 3 [2; 0; 1]) =
    Returned [generated 0; generated 1; generated 2] ∧
  NoDup (map (λ f, file_name (file f)) [generated 0; generated 1; generated 2]).
Proof.
  split; [reflexivity|].
  apply (returned_images_are_in_slot_order (flaky (λ _, None)) "a cat" 3
           [2; 0; 1] [generated 0; generated 1; generated 2]);
    [compute_done | reflexivity].
Defined.

Lemma generateImages_waits_witness :
  result_of (generateImages (flaky (λ _, None)) "a cat" 3 [2; 0]) = Running.
Proof.
  apply (generateImages_waits_for_every_call (flaky (λ _, None)) "a cat" 3 [2; 0]).
  - compute_done.
  - intros i Hi. apply elem_of_cons in Hi as [->|Hi]; [lia|].
    apply list_elem_of_singleton in Hi. subst. lia.
  - intros i Hi. apply elem_of_cons in Hi as [->|Hi];
      [by exists (generated 2)|].
    apply list_elem_of_singleton in Hi. subst. by exists (generated 0).
  - simpl. lia.
Defined.

End ImagesExamples.

(** ** White space *)

Section Blank.

Lemma string_length_ind (P : string → Prop) :
  (∀ s, (∀ s', String.length s' < String.length s → P s') → P s) →
  ∀ s, P s.
Proof.
  intros Hstep s. remember (String.length s) as n eqn:Hn. revert s Hn.
  induction (lt_wf n) as [n _ IH]. intros s ->.
  apply Hstep. intros s' Hlt. by apply (IH _ Hlt).
Qed.

Lemma rev_string_empty (s : string) : ∀ acc,
  rev_string acc s = "" → acc = "" ∧ s = "".
Proof.
  induction s as [|c s IH]; intros acc; simpl; [done|].
  intros Hrev. by destruct (IH _ Hrev) as [? _].
Qed.

(** Reversing twice gives the string back. *)
Lemma rev_string_rev_string (s : string) : ∀ a b,
  rev_string a (rev_string b s) = rev_string (s +:+ a) b.
Proof.
  induction s as [|c s IH]; intros a b; simpl; [done|]. by rewrite IH.
Qed.

Lemma rev_string_involutive (s : string) :
  rev_string "" (rev_string "" s) = s.
Proof.
  rewrite rev_string_rev_string. simpl.
  induction s as [|c s IH]; [done|].
  change (String c (s +:+ "") = String c s). by rewrite IH.
Qed.

Section Strip.

Variable one : ascii → bool.
Variable two : ascii → ascii → bool.
Variable three : ascii → ascii → ascii → bool.

(** Everything is removed exactly from a string made of such characters
    only. *)
Lemma strip_empty (s : string) :
  strip one two three s = "" ↔ made_of one two three s = true.
Proof.
  induction s as [s IH] using string_length_ind.
  destruct s as [|c1 s1]; [done|]. simpl.
  destruct (one c1); [apply IH; simpl; lia|].
  destruct s1 as [|c2 s2]; [split; discriminate|].
  destruct (two c1 c2); [apply IH; simpl; lia|].
  destruct s2 as [|c3 s3]; [split; discriminate|].
  destruct (three c1 c2 c3); [apply IH; simpl; lia|].
  split; discriminate.
Qed.

(** What is left does not start with such a character. *)
Lemma strip_starts_with (s : string) :
  starts_with one two three (strip one two three s) = false.
Proof.
  induction s as [s IH] using string_length_ind.
  destruct s as [|c1 s1]; [done|]. simpl.
  destruct (one c1) eqn:H1; [apply IH; simpl; lia|].
  destruct s1 as [|c2 s2]; [simpl; by rewrite H1|].
  destruct (two c1 c2) eqn:H2; [apply IH; simpl; lia|].
  destruct s2 as [|c3 s3]; [simpl; by rewrite H1, H2|].
  destruct (three c1 c2 c3) eqn:H3; [apply IH; simpl; lia|].
  simpl. by rewrite H1, H2, H3.
Qed.

(** A string that is, read from its end, made of such characters only
    starts with one. *)
Lemma made_of_rev_starts_with (s : string) : ∀ acc,
  made_of one (λ c2 c1, two c1 c2) (λ c3 c2 c1, three c1 c2 c3) s = true →
  s ≠ "" →
  starts_with one two three (rev_string acc s) = true.
Proof.
  induction s as [s IH] using string_length_ind. intros acc Hmade Hne.
  destruct s as [|c1 s1]; [done|]. simpl in Hmade. simpl.
  destruct (one c1) eqn:H1.
  { destruct s1 as [|c s1]; [simpl; by rewrite H1|].
    apply IH; [simpl; lia | done | done]. }
  destruct s1 as [|c2 s2]; [done|]. simpl.
  destruct (two c2 c1) eqn:H2.
  { destruct s2 as [|c s2]; [simpl; rewrite H2; apply orb_true_r|].
    apply IH; [simpl; lia | done | done]. }
  destruct s2 as [|c3 s3]; [done|]. simpl.
  destruct (three c3 c2 c1) eqn:H3; [|done].
  destruct s3 as [|c s3]; [simpl; rewrite H3; by rewrite !orb_true_r|].
  apply IH; [simpl; lia | done | done].
Qed.

End Strip.

Lemma trimStart_blank (s : string) : trimStart s = "" ↔ blank s = true.
Proof. apply strip_empty. Qed.

(** [prompt.trim()] is empty exactly for a prompt made of white space
    only. *)
Lemma trim_blank (s : string) : truthy (trim s) = negb (blank s).
Proof.
  unfold trim, trimEnd.
  destruct (blank s) eqn:Hblank; simpl.
  - apply trimStart_blank in Hblank. by rewrite Hblank.
  - unfold truthy. apply negb_true_iff, String.eqb_neq. intros Hempty.
    apply rev_string_empty in Hempty as [_ Hempty].
    apply strip_empty in Hempty.
    assert (Hleft : trimStart s ≠ "").
    { intros Hnone. apply trimStart_blank in Hnone. congruence. }
    assert (Hrev : rev_string "" (trimStart s) ≠ "").
    { intros Hnone. by apply rev_string_empty in Hnone as [_ Hnone]. }
    pose proof (made_of_rev_starts_with is_space is_space2 is_space3
                  _ "" Hempty Hrev) as Hstarts.
    rewrite rev_string_involutive in Hstarts.
    unfold trimStart in Hstarts. by rewrite strip_starts_with in Hstarts.
Qed.

(** A prompt made of U+00A0 NO-BREAK SPACE, U+3000 IDEOGRAPHIC SPACE and
    a line feed is blank, and such characters are removed from both ends
    of a prompt. *)
Lemma unicode_white_space_is_trimmed :
  let nbsp := String (ascii_of_nat 194) (String (ascii_of_nat 160) "") in
  let ideographic :=
    String (ascii_of_nat 227)
      (String (ascii_of_nat 128) (String (ascii_of_nat 128) "")) in
  let line_feed := String (ascii_of_nat 10) "" in
  trim (nbsp +:+ ideographic +:+ line_feed) = "" ∧
  blank (nbsp +:+ ideographic +:+ line_feed) = true ∧
  trim (nbsp +:+ " a cat" +:+ ideographic +:+ nbsp) = "a cat".
Proof. by vm_compute. Qed.

End Blank.

Section BlankExamples.

Import GeminiService Examples.

(** A prompt made of no-break spaces is blank for both dialogs: a click
    on Generate asks for a prompt and starts no batch, and in the dialog
    with a status per slot the tiles selected before stay selected over
    the single error slot. *)
Lemma no_break_space_prompt_is_blank :
  let spaces := no_break_space +:+ no_break_space in
  blank spaces = true ∧
  trim spaces = "" ∧
  ImageGenerationDialog.error
    (ImageGenerationDialog.handleGenerate (flaky (λ _, None)) [0; 1]
       (ImageGenerationDialog.setPrompt spaces
          (ImageGenerationDialog.initial "a cat"))) =
    Some "Please enter a prompt." ∧
  let st :=
    ImageGenerationDialogStatus.steps (flaky (λ _, None)) dialog_props
      [ImageGenerationDialogStatus.ClickGenerate;
       ImageGenerationDialogStatus.Complete 1;
       ImageGenerationDialogStatus.Complete 0;
       ImageGenerationDialogStatus.ClickTile 0;
       ImageGenerationDialogStatus.ClickTile 1;
       ImageGenerationDialogStatus.TypePrompt spaces;
       ImageGenerationDialogStatus.ClickGenerate]
      (ImageGenerationDialogStatus.initial dialog_props) in
  ImageGenerationDialogStatus.generationResults st =
    [Some {| ImageGenerationDialogStatus.status :=
               ImageGenerationDialogStatus.error;
             ImageGenerationDialogStatus.data := None;
             ImageGenerationDialogStatus.error_message :=
               Some "Please enter a prompt to generate images." |}] ∧
  ImageGenerationDialogStatus.selectedIndices st = [0; 1] ∧
  ImageGenerationDialogStatus.handleAddSelected st = [].
Proof. repeat split; reflexivity. Qed.

End BlankExamples.

(** ** The gallery: what is handed over *)

Section GalleryAdd.

Import ImageGalleryDialog.

Variable maxSelectable : nat.

(** A click keeps the selection without repetition, within the maximum
    and among the indices clicked so far. *)
Lemma toggleSelection_valid (P : nat → Prop) index prev :
  NoDup prev → length prev ≤ maxSelectable → Forall P prev → P index →
  NoDup (toggleSelection maxSelectable index prev) ∧
  length (toggleSelection maxSelectable index prev) ≤ maxSelectable ∧
  Forall P (toggleSelection maxSelectable index prev).
Proof.
  intros Hnodup Hlen Hall Hindex. unfold toggleSelection.
  case_bool_decide as Hin; [|case_bool_decide as Hroom].
  - split; [by apply NoDup_filter|]. split.
    + pose proof (length_filter (λ i, i ≠ index) prev). lia.
    + apply Forall_forall. intros i Hi.
      apply list_elem_of_filter in Hi as [_ Hi].
      by apply (proj1 (Forall_forall P prev) Hall).
  - split; [|split].
    + apply NoDup_app. split; [done|]. split; [|apply NoDup_singleton].
      intros i Hi Hi'. apply list_elem_of_singleton in Hi'. by subst.
    + rewrite length_app. simpl. lia.
    + apply Forall_app. split; [done|]. by apply Forall_singleton.
  - done.
Qed.

Lemma clicks_valid (P : nat → Prop) indices : ∀ prev,
  NoDup prev → length prev ≤ maxSelectable → Forall P prev →
  Forall P indices →
  NoDup (clicks maxSelectable indices prev) ∧
  length (clicks maxSelectable indices prev) ≤ maxSelectable ∧
  Forall P (clicks maxSelectable indices prev).
Proof.
  unfold clicks.
  induction indices as [|i indices IH]; intros prev Hnodup Hlen Hall Hind;
    [done|].
  apply Forall_cons in Hind as [Hi Hind]. simpl.
  destruct (toggleSelection_valid P i prev Hnodup Hlen Hall Hi)
    as (Hn & Hl & Hp).
  by apply IH.
Qed.

(** X14. Whatever tiles are clicked, in whatever order and however
    often, the selection of the gallery holds no index twice, never more
    than the maximum, and only indices that were clicked. *)
Theorem gallery_selection_is_valid (indices : list nat) :
  let selection := clicks maxSelectable indices [] in
  NoDup selection ∧ length selection ≤ maxSelectable ∧
  ∀ i, i ∈ selection → i ∈ indices.
Proof.
  destruct (clicks_valid (λ i, i ∈ indices) indices [])
    as (Hnodup & Hlen & Hall).
  - apply NoDup_nil_2.
  - simpl. lia.
  - apply Forall_nil_2.
  - by apply Forall_forall.
  - simpl. split; [done|]. split; [done|]. by apply Forall_forall.
Qed.

(** X15. When the tiles clicked are tiles of the gallery, Add Selected
    hands over one image of the gallery per selected index, in the order
    of selection, at most the maximum, and never [undefined]. *)
Theorem gallery_hands_over_selected_images
    (images : list ImageFile) (indices : list nat) :
  (∀ i, i ∈ indices → i < length images) →
  let selection := clicks maxSelectable indices [] in
  ∃ added,
    handleAddSelected images selection = map Some added ∧
    length added = length selection ∧
    length added ≤ maxSelectable ∧
    Forall2 (λ index img, images !! index = Some img) selection added.
Proof.
  intros Hrendered selection.
  destruct (clicks_valid (λ i, i < length images) indices [])
    as (Hnodup & Hlen & Hall).
  - apply NoDup_nil_2.
  - simpl. lia.
  - apply Forall_nil_2.
  - by apply Forall_forall.
  - fold selection in Hnodup, Hlen, Hall. clearbody selection.
    unfold handleAddSelected. clear Hnodup.
    induction selection as [|i selection IH].
    + exists []. repeat split; try done; simpl; first [lia | constructor].
    + apply Forall_cons in Hall as [Hi Hall]. simpl in Hlen.
      destruct IH as (added & Hmap & Hsame & _ & Hpair); [lia | done |].
      destruct (lookup_lt_is_Some_2 images i Hi) as [img Himg].
      exists (img :: added). simpl. rewrite Himg, Hmap.
      repeat split; try done; [lia.. | by constructor].
Qed.

(** X16. Two clicks on the same tile restore the selected set: a tile
    that was not selected leaves the selection exactly as it was, a tile
    that was selected ends up last. *)
Theorem gallery_toggle_twice (index : nat) (prev : list nat) :
  NoDup prev → length prev ≤ maxSelectable →
  let twice :=
    toggleSelection maxSelectable index
      (toggleSelection maxSelectable index prev) in
  twice ≡ₚ prev ∧
  (index ∉ prev → twice = prev) ∧
  (index ∈ prev → twice = filter (λ i, i ≠ index) prev ++ [index]).
Proof.
  intros Hnodup Hlen twice.
  assert (Hout : index ∉ filter (λ i, i ≠ index) prev).
  { rewrite list_elem_of_filter. tauto. }
  destruct (decide (index ∈ prev)) as [Hin|Hnotin].
  - assert (Htwice : twice = filter (λ i, i ≠ index) prev ++ [index]).
    { unfold twice. rewrite (toggleSelection_selected _ index prev) by done.
      apply toggleSelection_below; [done|].
      pose proof (filter_out_shorter index prev Hin). lia. }
    split; [|split; [done | by intros _]].
    rewrite Htwice. apply NoDup_Permutation; [|done|].
    + apply NoDup_app. split; [by apply NoDup_filter|].
      split; [|apply NoDup_singleton].
      intros i Hi Hi'. apply list_elem_of_singleton in Hi'. by subst.
    + intros i. rewrite elem_of_app, list_elem_of_filter,
        list_elem_of_singleton.
      destruct (decide (i = index)) as [->|Hne]; [tauto|]. tauto.
  - assert (Htwice : twice = prev).
    { unfold twice.
      destruct (decide (length prev < maxSelectable)) as [Hroom|Hfull].
      - rewrite (toggleSelection_below _ index prev) by done.
        rewrite toggleSelection_selected
          by (rewrite elem_of_app, list_elem_of_singleton; by right).
        rewrite filter_app, filter_cons_False, filter_nil, app_nil_r
          by (intros ?; done).
        apply filter_all. intros i Hi ->. done.
      - rewrite (toggleSelection_full _ index prev) by (done || lia).
        apply toggleSelection_full; [done | lia]. }
    split; [by rewrite Htwice|]. split; [done | by intros ?].
Qed.

End GalleryAdd.

Lemma gallery_hands_over_witness :
  ImageGalleryDialog.handleAddSelected
    [Examples.generated 0; Examples.generated 1; Examples.generated 2]
    (ImageGalleryDialog.clicks 2 [2; 0; 1; 2; 1] []) =
  [Some (Examples.generated 0); Some (Examples.generated 1)].
Proof.
  destruct (gallery_hands_over_selected_images 2
              [Examples.generated 0; Examples.generated 1; Examples.generated 2]
              [2; 0; 1; 2; 1]) as (added & Hadded & _ & _ & Hpair).
  - intros i Hi. apply (bool_decide_unpack _).
    revert i Hi. apply Forall_forall.
    repeat (apply Forall_cons; split; [reflexivity|]). apply Forall_nil_2.
  - reflexivity.
Defined.

Lemma gallery_toggle_twice_witness :
  ImageGalleryDialog.toggleSelection 3 5
    (ImageGalleryDialog.toggleSelection 3 5 [5; 7]) = [7; 5] ∧
  ImageGalleryDialog.toggleSelection 3 9
    (ImageGalleryDialog.toggleSelection 3 9 [5; 7]) = [5; 7].
Proof.
  destruct (gallery_toggle_twice 3 5 [5; 7]) as (_ & _ & Hin);
    [compute_done | simpl; lia |].
  destruct (gallery_toggle_twice 3 9 [5; 7]) as (_ & Hout & _);
    [compute_done | simpl; lia |].
  split; [apply Hin; compute_done | apply Hout; compute_done].
Defined.

(** ** The dialog that awaits generateImages *)

Section AwaitingDialog.

Import GeminiService ImageGenerationDialog.

Variable env : ImageProvider.
Variable maxImagesToAdd : nat.

(** X17. With a prompt made of white space only, a click on Generate
    sends no request: it sets the error to the request for a prompt and
    changes nothing else, whatever the provider would have answered; the
    images shown before and their selection are kept. *)
Theorem blank_prompt_sends_nothing (schedule : list nat) (st : State) :
  blank (prompt st) = true →
  handleGenerate env schedule st =
    {| prompt := prompt st;
       numberOfImages := numberOfImages st;
       generatedImages := generatedImages st;
       selectedIndices := selectedIndices st;
       isLoading := isLoading st;
       error := Some "Please enter a prompt." |}.
Proof.
  intros Hblank. unfold handleGenerate. by rewrite trim_blank, Hblank.
Qed.


(** [handleGenerate] leaves the selection valid. *)
Lemma handleGenerate_selection_valid schedule st :
  selection_valid maxImagesToAdd st →
  selection_valid maxImagesToAdd (handleGenerate env schedule st).
Proof.
  intros Hvalid. unfold handleGenerate.
  destruct (negb (truthy (trim (prompt st)))); [done|].
  destruct (result_of _); unfold selection_valid; simpl;
    (split; [apply NoDup_nil_2|]); (split; [lia|]);
    intros i Hi; by apply elem_of_nil in Hi.
Qed.

Lemma step_selection_valid st a :
  selection_valid maxImagesToAdd st →
  selection_valid maxImagesToAdd (step env maxImagesToAdd st a).
Proof.
  intros Hvalid. destruct a as [s|n|schedule|index]; simpl; try done.
  - destruct (isLoading st); [done|]. by apply handleGenerate_selection_valid.
  - unfold tile_shown.
    destruct (negb (isLoading st) && negb (truthy_opt (error st))); [|done].
    simpl. case_bool_decide as Hindex; [|done].
    destruct Hvalid as (Hnodup & Hlen & Hbound).
    destruct (toggleSelection_valid maxImagesToAdd
                (λ i, i < length (generatedImages st)) index
                (selectedIndices st) Hnodup Hlen)
      as (Hn & Hl & Hp); [by apply Forall_forall | done |].
    unfold selection_valid. simpl.
    split; [done|]. split; [done|]. by apply Forall_forall.
Qed.

(** X19. In every state of the dialog, after any sequence of typing,
    generations that succeed, fail or never end, and clicks on the tiles
    shown, the selection holds distinct indices of the generated images,
    no more than the maximum, and Add Selected hands over exactly the
    selected images, none of them [undefined]. *)
Theorem awaiting_dialog_selection_is_valid
    (initialPrompt : string) (acts : list Action) :
  let st := steps env maxImagesToAdd acts (initial initialPrompt) in
  selection_valid maxImagesToAdd st ∧
  ∃ added,
    handleAddSelected st = map Some added ∧
    length added = length (selectedIndices st) ∧
    length added ≤ maxImagesToAdd.
Proof.
  intros st.
  assert (Hvalid : selection_valid maxImagesToAdd st).
  { unfold st, steps.
    assert (Hinit : selection_valid maxImagesToAdd (initial initialPrompt)).
    { unfold selection_valid. simpl. split; [apply NoDup_nil_2|].
      split; [lia|]. intros i Hi. by apply elem_of_nil in Hi. }
    revert Hinit. generalize (initial initialPrompt).
    induction acts as [|a acts IH]; intros st0 Hst0; [done|].
    simpl. by apply IH, step_selection_valid. }
  split; [done|].
  destruct Hvalid as (_ & Hlen & Hbound). unfold handleAddSelected.
  clearbody st. revert Hlen Hbound.
  induction (selectedIndices st) as [|i sel IH]; intros Hlen Hbound.
  - exists []. simpl. repeat split; first [done | lia].
  - destruct IH as (added & Hmap & Hsame & _).
    { simpl in Hlen. lia. }
    { intros j Hj. apply Hbound. by right. }
    destruct (lookup_lt_is_Some_2 (generatedImages st) i) as [img Himg].
    { apply Hbound. by left. }
    exists (img :: added). simpl. rewrite Himg, Hmap.
    simpl in Hlen. repeat split; try done; lia.
Qed.

End AwaitingDialog.

Section AwaitingDialogExamples.

Import GeminiService ImageGenerationDialog Examples.

Lemma blank_prompt_witness :
  error (handleGenerate (flaky (λ _, None)) [0; 1]
           (setPrompt "   " (initial "a cat"))) =
    Some "Please enter a prompt.".
Proof.
  exact (f_equal error
           (blank_prompt_sends_nothing (flaky (λ _, None)) [0; 1]
              (setPrompt "   " (initial "a cat")) eq_refl)).
Defined.


End AwaitingDialogExamples.

(** ** The dialog with a status per slot: every state *)

Section StatusStates.

Import GeminiService ImageGenerationDialogStatus.

Variable env : ImageProvider.
Variable props : Props.

Lemma outcome_result_settled p i :
  (∃ imageFile, outcome_result env props p i = success_result imageFile) ∨
  (∃ message, outcome_result env props p i = error_result message).
Proof.
  unfold outcome_result. destruct (slotPromise env props p i); eauto.
Qed.

Lemma outcome_result_not_pending p i :
  status (outcome_result env props p i) ≠ pending.
Proof.
  destruct (outcome_result_settled p i) as [[f ->]|[m ->]]; done.
Qed.

Lemma length_omap_le {A B} (g : A → option B) (l : list A) :
  length (omap g l) ≤ length l.
Proof.
  induction l as [|a l IH]; csimpl; [done|].
  destruct (g a); simpl; lia.
Qed.

(** Every step keeps the slots in shape, the pending slots among the
    requests in flight, and the selection distinct and within the
    maximum. *)
Lemma step_tidy st a : tidy props st → tidy props (step env props st a).
Proof.
  intros (Hfc & Hshape & Hpending & Hnodup & Hlen).
  split; [by apply step_flight_consistent|].
  destruct Hfc as (Hflight & Hidle & _).
  unfold slots_well_shaped, pending_only_in_flight, selection_bounded,
    in_flight_pending, flight_only_while_generating, status_at in *.
  destruct a as [s|n| |i|index]; simpl.
  - case_bool_decide; done.
  - case_bool_decide; done.
  - case_bool_decide as Hgen; [done|].
    unfold handleGenerate.
    destruct (truthy (trim (prompt st))) eqn:Hprompt; simpl.
    + assert (Hall : Forall (λ o, ∃ r, o = Some r ∧ well_shaped r)
                       (replicate (numberOfImages st) (Some pending_result))).
      { apply Forall_replicate. exists pending_result. split; [done|]. by left. }
      assert (Hseq : ∀ i,
        status <$> array_get i
          (replicate (numberOfImages st) (Some pending_result)) = Some pending →
        i ∈ seq 0 (numberOfImages st)).
      { intros i Hi. apply list_elem_of_In, in_seq. split; [lia|]. simpl.
        destruct (decide (i < numberOfImages st)) as [|Hge]; [done|].
        unfold array_get in Hi.
        rewrite lookup_ge_None_2 in Hi by (rewrite length_replicate; lia).
        done. }
      destruct (numberOfImages st =? 0) eqn:Hn; simpl;
        (split; [done|]); (split; [done|]);
        (split; [apply NoDup_nil_2 | lia]).
    + split; [|split; [|done]].
      * apply Forall_singleton. eexists. split; [done|]. right. right.
        by eexists.
      * intros [|i] Hi; simpl in Hi; done.
  - destruct (decide (i ∈ unsettled st)) as [Hin|Hnotin];
      [|by rewrite complete_not_in_flight].
    destruct (status_at_lookup st i pending (Hflight i Hin))
      as (r & Hslot & Hr).
    assert (Hlt : i < length (generationResults st))
      by (by apply lookup_lt_Some in Hslot).
    rewrite complete_in_flight by done. simpl.
    split; [|split; [|done]].
    + apply Forall_insert; [done|]. eexists. split; [done|].
      destruct (outcome_result_settled (batchPrompt st) i) as [[f ->]|[m ->]].
      * right. left. by eexists.
      * right. right. by eexists.
    + intros j Hj. destruct (decide (j = i)) as [->|Hne].
      * unfold array_get in Hj. rewrite list_lookup_insert_eq in Hj by done.
        simpl in Hj. injection Hj as Hj.
        by destruct (outcome_result_not_pending (batchPrompt st) i).
      * unfold array_get in Hj. rewrite list_lookup_insert_ne in Hj by done.
        apply list_elem_of_filter. split; [done|]. by apply Hpending.
  - unfold toggleSelection.
    destruct (is_success (array_get index (generationResults st))); [|done].
    simpl. split; [done|]. split; [done|].
    case_bool_decide as Hin; [|case_bool_decide as Hroom].
    + split; [by apply NoDup_filter|].
      pose proof (length_filter (λ i, i ≠ index) (selectedIndices st)). lia.
    + split.
      * apply NoDup_app. split; [done|]. split; [|apply NoDup_singleton].
        intros i Hi Hi'. apply list_elem_of_singleton in Hi'. by subst.
      * rewrite length_app. simpl. lia.
    + done.
Qed.

Lemma initial_tidy : tidy props (initial props).
Proof.
  split; [apply initial_consistent|]. split; [apply Forall_nil_2|].
  split; [|split; [apply NoDup_nil_2 | simpl; lia]].
  intros i Hi. unfold status_at, array_get in Hi. simpl in Hi.
  by destruct i.
Qed.

Lemma steps_tidy acts : ∀ st,
  tidy props st → tidy props (steps env props acts st).
Proof.
  unfold steps. induction acts as [|a acts IH]; intros st Hst; [done|].
  simpl. by apply IH, step_tidy.
Qed.

(** X20. In every state of the dialog each slot of the status array has
    one of three shapes: pending with neither image nor message, success
    with an image, error with a message. The pending slots are exactly
    those of the requests in flight, so that no slot is pending once the
    dialog is not generating. *)
Theorem slots_are_pending_success_or_error (acts : list Action) :
  let st := steps env props acts (initial props) in
  (∀ i o, generationResults st !! i = Some o →
     o = Some {| status := pending; data := None; error_message := None |} ∨
     (∃ imageFile,
        o = Some {| status := success; data := Some imageFile;
                    error_message := None |}) ∨
     (∃ message,
        o = Some {| status := error; data := None;
                    error_message := Some message |})) ∧
  (∀ i, status_at st i = Some pending ↔ i ∈ unsettled st) ∧
  (generationStatus st ≠ generating → ∀ i, status_at st i ≠ Some pending).
Proof.
  intros st.
  destruct (steps_tidy acts (initial props) initial_tidy)
    as ((Hflight & Hidle & _) & Hshape & Hpending & _).
  fold st in Hflight, Hidle, Hshape, Hpending.
  split; [|split].
  - intros i o Hi.
    destruct (proj1 (Forall_lookup _ _) Hshape i o Hi)
      as (r & -> & [->|[[f ->]|[m ->]]]); eauto.
  - intros i. split; [apply Hpending | apply Hflight].
  - intros Hgen i Hi. apply Hpending in Hi. rewrite (Hidle Hgen) in Hi.
    by apply elem_of_nil in Hi.
Qed.

(** X21. In every state of the dialog the selection holds no index twice
    and never more than maxImagesToAdd indices, and Add Selected hands
    over at most maxImagesToAdd images. *)
Theorem never_more_than_the_maximum (acts : list Action) :
  let st := steps env props acts (initial props) in
  NoDup (selectedIndices st) ∧
  length (selectedIndices st) ≤ maxImagesToAdd props ∧
  length (handleAddSelected st) ≤ maxImagesToAdd props.
Proof.
  intros st.
  destruct (steps_tidy acts (initial props) initial_tidy)
    as (_ & _ & _ & Hnodup & Hlen).
  fold st in Hnodup, Hlen. split; [done|]. split; [done|].
  unfold handleAddSelected.
  pose proof (length_omap_le
    (λ index, match array_get index (generationResults st) with
              | Some r => data r
              | None => None
              end) (selectedIndices st)). lia.
Qed.

End StatusStates.

(** ** The dialog with a status per slot: batches *)

Section StatusBatches.

Import GeminiService ImageGenerationDialogStatus.

Variable env : ImageProvider.
Variable props : Props.

(** X22. With a prompt made of white space only, a click on Generate
    sends no request: the status array becomes a single error slot that
    asks for a prompt, the dialog is finished and shows that message in
    red; the prompt, the count and the requests in flight are as
    before. *)
Theorem blank_prompt_shows_one_error (st : State) :
  generationStatus st ≠ generating →
  blank (prompt st) = true →
  let st' := step env props st ClickGenerate in
  generationResults st' =
    [Some (error_result "Please enter a prompt to generate images.")] ∧
  generationStatus st' = finished ∧
  unsettled st' = unsettled st ∧
  prompt st' = prompt st ∧ numberOfImages st' = numberOfImages st ∧
  renderStatusMessage st' =
    Some ("text-red-300", "Please enter a prompt to generate images.").
Proof.
  intros Hgen Hblank st'. unfold st'. simpl.
  rewrite bool_decide_eq_false_2 by done.
  unfold handleGenerate. rewrite trim_blank, Hblank. simpl.
  by repeat split.
Qed.


(** X24. When the image of a request was obtained but the
    [onImagesGenerated] callback throws, the slot ends with the status
    error, no image, and the message of what the callback threw (the
    generic string when that is not an [Error]), not as a success. *)
Theorem throwing_callback_fails_the_slot
    (st0 : State) (settled : list nat) (i : nat) (imageFile : ImageFile)
    (err : Thrown) :
  generationStatus st0 ≠ generating →
  blank (prompt st0) = false →
  i < numberOfImages st0 →
  i ∈ settled →
  imageData env (prompt st0) i = Ok imageFile →
  onImagesGenerated props [imageFile] = Throw err →
  let st := steps env props (ClickGenerate :: completions settled) st0 in
  array_get i (generationResults st) =
    Some {| status := error;
            data := None;
            error_message :=
              Some match err with
                   | ErrorObject message => message
                   | NonError _ => "An unknown error occurred."
                   end |} ∧
  status_at st i = Some error.
Proof.
  intros Hgen Hblank Hlt Hin Hdata Hcallback st.
  assert (Hprompt : truthy (trim (prompt st0)) = true)
    by (by rewrite trim_blank, Hblank).
  assert (Hslot : array_get i (generationResults st) =
                  Some (error_result (message_of err))).
  { unfold st, array_get.
    rewrite generate_then_complete, batch_state by done. simpl.
    rewrite batch_results_lookup by done.
    rewrite bool_decide_eq_true_2 by done. simpl.
    unfold outcome_result, slotPromise. by rewrite Hdata, Hcallback. }
  split; [done|]. unfold status_at. by rewrite Hslot.
Qed.




End StatusBatches.

Section StatusAdd.

Import GeminiService ImageGenerationDialogStatus.

Variable env : ImageProvider.
Variable props : Props.

(** X26. In a run in which Generate is never clicked on a blank prompt
    while something is selected, Add Selected hands over exactly one
    image per selected index, in the order of selection, each the image
    of its slot, whose status is success. *)
Theorem add_selected_hands_over_the_selection (acts : list Action) :
  without_blank_generate env props (initial props) acts →
  let st := steps env props acts (initial props) in
  length (handleAddSelected st) = length (selectedIndices st) ∧
  Forall2 (λ index img,
             array_get index (generationResults st) =
               Some {| status := success;
                       data := Some img;
                       error_message := None |})
          (selectedIndices st) (handleAddSelected st).
Proof.
  intros Hsafe st.
  destruct (selection_consistent_without_blank_generate env props acts
              (initial props) (initial_consistent props) Hsafe)
    as (_ & Hrefers & _).
  destruct (steps_tidy env props acts (initial props) (initial_tidy props))
    as (_ & Hshape & _).
  fold st in Hrefers, Hshape.
  assert (Hslot : ∀ i, i ∈ selectedIndices st →
            ∃ img, array_get i (generationResults st) =
                     Some (success_result img)).
  { intros i Hi. specialize (Hrefers i Hi).
    destruct (status_at_lookup st i success Hrefers) as (r & Hr & Hstatus).
    destruct (proj1 (Forall_lookup _ _) Hshape i (Some r) Hr)
      as (r' & [= <-] & [->|[[img ->]|[m ->]]]); try done.
    exists img. unfold array_get. by rewrite Hr. }
  unfold handleAddSelected. clear Hrefers.
  induction (selectedIndices st) as [|i sel IH]; [by split; [|constructor]|].
  destruct (Hslot i) as [img Himg]; [by left|].
  destruct IH as [Hlen Hpair]; [intros j Hj; apply Hslot; by right|].
  csimpl. rewrite Himg. simpl. split; [by rewrite Hlen|]. by constructor.
Qed.

End StatusAdd.

Section StatusExtrasExamples.

Import GeminiService ImageGenerationDialogStatus Examples.

Lemma blank_prompt_shows_one_error_witness :
  renderStatusMessage
    (step (flaky (λ _, None)) dialog_props
       (setPrompt "  " (initial dialog_props)) ClickGenerate) =
  Some ("text-red-300", "Please enter a prompt to generate images.").
Proof.
  apply (blank_prompt_shows_one_error (flaky (λ _, None)) dialog_props
           (setPrompt "  " (initial dialog_props)));
    [discriminate | reflexivity].
Defined.


Lemma throwing_callback_witness :
  status_at
    (steps (flaky (λ _, None)) throwing_props
       (ClickGenerate :: completions [1; 0]) (initial throwing_props)) 0 =
  Some error.
Proof.
  apply (throwing_callback_fails_the_slot (flaky (λ _, None)) throwing_props
           (initial throwing_props) [1; 0] 0 (generated 0)
           (ErrorObject "gallery is full"));
    [discriminate | reflexivity | simpl; lia | compute_done
    | reflexivity | reflexivity].
Defined.


Lemma add_selected_witness :
  let st := steps (flaky (only 0 (ErrorObject "429"))) dialog_props
              [ClickGenerate; Complete 0; Complete 1; ClickTile 0; ClickTile 1]
              (initial dialog_props) in
  length (handleAddSelected st) = length (selectedIndices st) ∧
  Forall2 (λ index img,
             array_get index (generationResults st) =
               Some {| status := success;
                       data := Some img;
                       error_message := None |})
          (selectedIndices st) (handleAddSelected st).
Proof.
  apply (add_selected_hands_over_the_selection
           (flaky (only 0 (ErrorObject "429"))) dialog_props
           [ClickGenerate; Complete 0; Complete 1; ClickTile 0; ClickTile 1]).
  simpl. repeat split; try (intros (Ha & _); discriminate).
  intros (_ & _ & _ & Hsel). by apply Hsel.
Defined.

End StatusExtrasExamples.

(** ** The body of the fetched asset *)

Section AssetBody.

Import GeminiService.

Variable env : Provider.

(** X27. When the asset of the first generated video was fetched with a
    2xx status but reading its body fails, [generateVideo] throws the
    error of the read: the fetch is its last event and no object URL is
    created. *)
Theorem unreadable_body_is_final
    (fuel : nat) (params : GenerateVideoParams) (payload : Payload)
    (op0 operation : Operation) (t1 : list Event)
    (resp : GenerateVideosResponse) (firstVideo : GeneratedVideo)
    (others : list GeneratedVideo) (videoObject : Video) (u url : string)
    (res : Response) (err : Thrown) :
  buildPayload params = Ok payload →
  generateVideos env payload = Ok op0 →
  poll env fuel 0 op0 [GenerateVideos payload] = (Returned operation, t1) →
  response operation = Some resp →
  generatedVideos resp = Some (firstVideo :: others) →
  video firstVideo = Some videoObject →
  uri videoObject = Some u →
  u ≠ "" →
  decodeURIComponent env u = Ok url →
  fetch env (url +:+ "&key=" +:+ API_KEY env) = Ok res →
  200 ≤ status res ≤ 299 →
  body res = Throw err →
  let run := generateVideo env fuel params [] in
  run = (Threw err, t1 ++ [Fetch (url +:+ "&key=" +:+ API_KEY env)]) ∧
  existsb is_object_url (snd run) = existsb is_object_url t1.
Proof.
  intros Hbuilt Hsubmit Hpoll Hresp Hvideos Hvideo Huri Hu Hdecode Hfetch
    Hstatus Hbody run.
  assert (Hrun : run =
            (Threw err, t1 ++ [Fetch (url +:+ "&key=" +:+ API_KEY env)])).
  { unfold run.
    rewrite (generateVideo_after_poll env fuel params payload op0 operation
               [] t1 Hbuilt Hsubmit Hpoll).
    unfold retrieve. rewrite Hresp, Hvideos, Hvideo, Huri.
    assert (Htruthy : truthy u = true).
    { unfold truthy. by destruct (String.eqb_spec u ""). }
    rewrite Htruthy. unfold bind, emit, ret, throw. rewrite Hdecode. simpl.
    rewrite Hfetch. simpl.
    assert (Hok : ok res = true).
    { unfold ok. rewrite andb_true_iff, !Nat.leb_le. lia. }
    by rewrite Hok, Hbody. }
  split; [done|]. rewrite Hrun. simpl.
  rewrite existsb_app. simpl. by rewrite orb_false_r.
Qed.

End AssetBody.

Section AssetBodyExamples.

Import GeminiService Examples.

Lemma unreadable_body_witness :
  generateVideo unreadable 2 text_params [] =
    (Threw (ErrorObject "network error"),
     three_checks ++ [Fetch (clip_url +:+ "&key=k")]).
Proof.
  refine (proj1 (unreadable_body_is_final unreadable 2 text_params
    text_payload (handle 2 0) (handle 2 2) three_checks clip_response
    {| video := Some clip |} [] clip clip_url clip_url
    {| status := 200; statusText := "OK";
       body := Throw (ErrorObject "network error") |}
    (ErrorObject "network error")
    eq_refl eq_refl eq_refl eq_refl eq_refl eq_refl eq_refl _ eq_refl eq_refl
    _ eq_refl)).
  - discriminate.
  - simpl. lia.
Defined.

End AssetBodyExamples.
